(** * domdef.py: domain definitions and their selection-macro writers

    A shallow embedding of [scripts/domdef.py] (class [DomDef]) and the
    properties its specification states about it.

    The script is Python 2 code: [load] flattens [self.domains.values()]
    with numpy, which needs [values()] to be a list.  Strings are therefore
    Python 2 byte strings ([list ascii]), integers are unbounded ([Z]), and
    the whitespace of [strip] and [split] is the C locale's.

    Layout: Python strings, ordered dictionaries, the exception and state
    monad, the class itself, the reference definitions that follow the
    specification's words, and then the theorems. *)

From Stdlib Require Import Ascii String.
From Stdlib Require Import List ZArith Lia Bool Arith Sorted.
From Stdlib Require Import DecimalPos DecimalN DecimalZ.
Import ListNotations.
Local Open Scope Z_scope.

(** ** Python byte strings *)

Definition str := list ascii.

(** [lit] turns a literal into a Python string. *)
Definition lit (s : string) : str := list_ascii_of_string s.

Definition str_eqb (a b : str) : bool :=
  if list_eq_dec ascii_dec a b then true else false.

Definition chr_nl : ascii := "010"%char.
Definition chr_tab : ascii := "009"%char.
Definition chr_cr : ascii := "013"%char.
Definition chr_dquote : ascii := "034"%char.
Definition chr_squote : ascii := "039"%char.
Definition chr_backslash : ascii := "092"%char.

Module PyStr.

(** [isspace] in the C locale: space, \t, \n, \v, \f, \r. *)
Definition isspace (c : ascii) : bool :=
  let n := nat_of_ascii c in
  (Nat.eqb n 32 || (Nat.leb 9 n && Nat.leb n 13))%bool.

Fixpoint dropwhile (p : ascii -> bool) (s : str) : str :=
  match s with
  | [] => []
  | c :: s' => if p c then dropwhile p s' else s
  end.

Definition lstrip (s : str) : str := dropwhile isspace s.
Definition rstrip (s : str) : str := rev (dropwhile isspace (rev s)).

(** [s.strip()] *)
Definition strip (s : str) : str := rstrip (lstrip s).

(** [s.split()]: the maximal runs of non-whitespace characters.  [cur]
    holds the field being read, reversed. *)
Fixpoint split_aux (cur : str) (s : str) : list str :=
  match s with
  | [] => match cur with [] => [] | _ => [rev cur] end
  | c :: s' =>
      if isspace c
      then match cur with
           | [] => split_aux [] s'
           | _ => rev cur :: split_aux [] s'
           end
      else split_aux (c :: cur) s'
  end.

Definition split (s : str) : list str := split_aux [] s.

(** [sep.join(l)] *)
Fixpoint join (sep : str) (l : list str) : str :=
  match l with
  | [] => []
  | [x] => x
  | x :: l' => x ++ sep ++ join sep l'
  end.

(** [s.startswith(c)] for a one-character prefix. *)
Definition startswith (c : ascii) (s : str) : bool :=
  match s with
  | [] => false
  | d :: _ => Ascii.eqb d c
  end.

(** [s\[1:\]] *)
Definition drop1 (s : str) : str := tl s.

(** [s.replace(c, new)] for a one-character pattern [c]: every occurrence
    of the character is replaced, left to right. *)
Fixpoint replace (c : ascii) (new : str) (s : str) : str :=
  match s with
  | [] => []
  | d :: s' => (if Ascii.eqb d c then new else [d]) ++ replace c new s'
  end.

(** Iterating over a file opened in mode 'r': the pieces of the content
    that end in a newline (which they keep), and the rest if it is not
    empty. *)
Fixpoint lines_aux (cur : str) (s : str) : list str :=
  match s with
  | [] => match cur with [] => [] | _ => [rev cur] end
  | c :: s' =>
      if Ascii.eqb c chr_nl
      then rev (c :: cur) :: lines_aux [] s'
      else lines_aux (c :: cur) s'
  end.

Definition lines (s : str) : list str := lines_aux [] s.

Definition spaces (n : nat) : str := repeat " "%char n.

(** ["%-Ns" % s] *)
Definition ljust (n : nat) (s : str) : str := s ++ spaces (n - length s).
(** ["%Nd"] applied to the digits [s] *)
Definition rjust (n : nat) (s : str) : str := spaces (n - length s) ++ s.

(** Decimal digits. *)
Fixpoint digits_of_uint (d : Decimal.uint) : str :=
  match d with
  | Decimal.Nil => []
  | Decimal.D0 d => "0"%char :: digits_of_uint d
  | Decimal.D1 d => "1"%char :: digits_of_uint d
  | Decimal.D2 d => "2"%char :: digits_of_uint d
  | Decimal.D3 d => "3"%char :: digits_of_uint d
  | Decimal.D4 d => "4"%char :: digits_of_uint d
  | Decimal.D5 d => "5"%char :: digits_of_uint d
  | Decimal.D6 d => "6"%char :: digits_of_uint d
  | Decimal.D7 d => "7"%char :: digits_of_uint d
  | Decimal.D8 d => "8"%char :: digits_of_uint d
  | Decimal.D9 d => "9"%char :: digits_of_uint d
  end.

Definition digit_cons (c : ascii) : option (Decimal.uint -> Decimal.uint) :=
  match nat_of_ascii c with
  | 48%nat => Some Decimal.D0 | 49%nat => Some Decimal.D1
  | 50%nat => Some Decimal.D2 | 51%nat => Some Decimal.D3
  | 52%nat => Some Decimal.D4 | 53%nat => Some Decimal.D5
  | 54%nat => Some Decimal.D6 | 55%nat => Some Decimal.D7
  | 56%nat => Some Decimal.D8 | 57%nat => Some Decimal.D9
  | _ => None
  end.

Fixpoint uint_of_digits (s : str) : option Decimal.uint :=
  match s with
  | [] => Some Decimal.Nil
  | c :: s' =>
      match digit_cons c, uint_of_digits s' with
      | Some k, Some d => Some (k d)
      | _, _ => None
      end
  end.

(** [str(z)], which is also ["%d" % z]. *)
Definition str_of_int (z : Z) : str :=
  match z with
  | Z0 => lit "0"
  | Zpos p => digits_of_uint (Pos.to_uint p)
  | Zneg p => "-"%char :: digits_of_uint (Pos.to_uint p)
  end.

(** ["%Nd" % z] *)
Definition fmt_d (n : nat) (z : Z) : str := rjust n (str_of_int z).

(** The literal that [int(s)] accepts once the surrounding whitespace is
    gone: an optional sign and at least one decimal digit.  [None] stands
    for the ValueError of an invalid literal. *)
Definition unsigned_literal (s : str) : option Z :=
  match s with
  | [] => None
  | _ => option_map Z.of_uint (uint_of_digits s)
  end.

Definition int_literal (s : str) : option Z :=
  match s with
  | c :: s' =>
      if Ascii.eqb c "-"%char then option_map Z.opp (unsigned_literal s')
      else if Ascii.eqb c "+"%char then unsigned_literal s'
      else unsigned_literal s
  | [] => None
  end.

Definition hex_digit (n : nat) : ascii :=
  nth n (lit "0123456789abcdef") "0"%char.

(** [repr(s)] of a byte string: quoted, with the quote, the backslash and
    every byte outside the printable ASCII range escaped. *)
Definition repr_quote (s : str) : ascii :=
  if (existsb (Ascii.eqb chr_squote) s
      && negb (existsb (Ascii.eqb chr_dquote) s))%bool
  then chr_dquote else chr_squote.

Definition repr_char (quote : ascii) (c : ascii) : str :=
  let n := nat_of_ascii c in
  if (Ascii.eqb c quote || Ascii.eqb c chr_backslash)%bool
  then [chr_backslash; c]
  else if Ascii.eqb c chr_tab then [chr_backslash; "t"%char]
  else if Ascii.eqb c chr_nl then [chr_backslash; "n"%char]
  else if Ascii.eqb c chr_cr then [chr_backslash; "r"%char]
  else if (Nat.ltb n 32 || Nat.leb 127 n)%bool
  then [chr_backslash; "x"%char; hex_digit (n / 16); hex_digit (n mod 16)]
  else [c].

Definition repr (s : str) : str :=
  let q := repr_quote s in
  q :: flat_map (repr_char q) s ++ [q].

End PyStr.

(** ** Ordered dictionaries

    [collections.OrderedDict] keyed by strings: an association list in
    insertion order; assigning to a key it already holds overwrites the
    value in place. *)

Module OrderedDict.
Section WithValues.
Variable V : Type.

Definition t := list (str * V).

Definition empty : t := [].

(** [d\[k\]]; [None] stands for the KeyError. *)
Fixpoint get (k : str) (d : t) : option V :=
  match d with
  | [] => None
  | (k', v) :: d' => if str_eqb k' k then Some v else get k d'
  end.

(** [d\[k\] = v] *)
Fixpoint set (k : str) (v : V) (d : t) : t :=
  match d with
  | [] => [(k, v)]
  | (k', v') :: d' =>
      if str_eqb k' k then (k', v) :: d' else (k', v') :: set k v d'
  end.

Definition keys (d : t) : list str := map fst d.
Definition values (d : t) : list V := map snd d.
Definition items (d : t) : list (str * V) := d.
End WithValues.
Arguments empty {V}.
Arguments get {V} k d.
Arguments set {V} k v d.
Arguments keys {V} d.
Arguments values {V} d.
Arguments items {V} d.
End OrderedDict.

(** ** Exceptions, the object and the world around it *)

Inductive exn := IOError | ValueError | IndexError | KeyError | AttributeError.

Inductive result (A : Type) :=
| OK (a : A)
| Raise (e : exn).
Arguments OK {A} a.
Arguments Raise {A} e.

(** The attributes of a [DomDef] instance.  A domain's value is the
    two-element list [\[start, end\]]; [first] and [last] exist only once
    [load] has run to its end. *)
Record DomDef := mkDomDef {
  filename : str;
  domains : OrderedDict.t (Z * Z);
  compounds : OrderedDict.t str;
  domain_order : list str;
  offset : Z;
  first : option Z;
  last : option Z
}.

(** What a method can touch: the instance, the files on disk, the buffer
    of the file it has open for writing, and standard output.  The disk
    holds one regular file per name, under the name the code passes to
    [open]: two names are two files.  What it
    cannot change is which paths [open(path, 'w')] accepts: [writable]
    is false for a path in a directory that does not exist, a path the
    user may not write to, and the like. *)
Record State := mkState {
  self : DomDef;
  fs : str -> option str;
  buf : str;
  stdout : str;
  writable : str -> bool
}.

Definition M (A : Type) := State -> result A * State.

Definition ret {A} (a : A) : M A := fun st => (OK a, st).

Definition bind {A B} (m : M A) (k : A -> M B) : M B :=
  fun st =>
    match m st with
    | (OK a, st') => k a st'
    | (Raise e, st') => (Raise e, st')
    end.

Definition raise {A} (e : exn) : M A := fun st => (Raise e, st).

Definition lift {A} (r : result A) : M A := fun st => (r, st).

Notation "x <- m ;; k" := (bind m (fun x => k))
  (at level 61, m at next level, right associativity).
Notation "m ;; k" := (bind m (fun _ => k))
  (at level 61, right associativity).
Notation "' pat <- m ;; k" := (bind m (fun x => match x with pat => k end))
  (at level 61, pat pattern, m at next level, right associativity).

Definition get_self : M DomDef := fun st => (OK (self st), st).

Definition modify_self (f : DomDef -> DomDef) : M unit :=
  fun st =>
    (OK tt, mkState (f (self st)) (fs st) (buf st) (stdout st) (writable st)).

Definition set_domains d (o : DomDef) : DomDef :=
  mkDomDef (filename o) d (compounds o) (domain_order o) (offset o)
           (first o) (last o).
Definition set_compounds c (o : DomDef) : DomDef :=
  mkDomDef (filename o) (domains o) c (domain_order o) (offset o)
           (first o) (last o).
Definition set_domain_order l (o : DomDef) : DomDef :=
  mkDomDef (filename o) (domains o) (compounds o) l (offset o)
           (first o) (last o).
Definition set_first z (o : DomDef) : DomDef :=
  mkDomDef (filename o) (domains o) (compounds o) (domain_order o) (offset o)
           (Some z) (last o).
Definition set_last z (o : DomDef) : DomDef :=
  mkDomDef (filename o) (domains o) (compounds o) (domain_order o) (offset o)
           (first o) (Some z).

Definition fs_set (path : str) (content : str) (f : str -> option str)
  : str -> option str :=
  fun p => if str_eqb p path then Some content else f p.

(** [open(path, 'r')] and reading the whole file. *)
Definition read_file (path : str) : M str :=
  fun st =>
    match fs st path with
    | Some content => (OK content, st)
    | None => (Raise IOError, st)
    end.

(** [f.write(s)] on the file open for writing. *)
Definition fwrite (s : str) : M unit :=
  fun st =>
    (OK tt, mkState (self st) (fs st) (buf st ++ s) (stdout st) (writable st)).

(** [with open(path, 'w') as f: body]: if the path cannot be opened for
    writing, [open] raises IOError and nothing has happened; otherwise
    the file is truncated, [body] writes into it, and what was written
    is on disk when the block is left, by its end or by an exception. *)
Definition with_open_w (path : str) (body : M unit) : M unit :=
  fun st =>
    if writable st path then
      let '(r, st') :=
        body (mkState (self st) (fs st) [] (stdout st) (writable st)) in
      (r, mkState (self st') (fs_set path (buf st') (fs st')) (buf st)
                  (stdout st') (writable st'))
    else (Raise IOError, st).

(** [print(s)] *)
Definition print (s : str) : M unit :=
  fun st =>
    (OK tt, mkState (self st) (fs st) (buf st) (stdout st ++ s ++ [chr_nl])
                    (writable st)).

(** [for x in l: body] *)
Fixpoint for_each {A} (l : list A) (body : A -> M unit) : M unit :=
  match l with
  | [] => ret tt
  | x :: l' => body x ;; for_each l' body
  end.

(** A generator is the list of the outcomes of its steps; a loop over it
    stops at the first step that raises. *)
Fixpoint for_gen {A} (g : list (result A)) (body : A -> M unit) : M unit :=
  match g with
  | [] => ret tt
  | r :: g' => x <- lift r ;; body x ;; for_gen g' body
  end.

(** [int(s)] on a string. *)
Definition py_int (s : str) : M Z :=
  match PyStr.int_literal (PyStr.strip s) with
  | Some z => ret z
  | None => raise ValueError
  end.

(** [numpy.sort] of a flat integer array.  numpy holds the residues in
    an int64 array as long as each of them is below 2^63; that is the
    array modelled here.  With a larger residue numpy changes the
    element type, and [first] and [last] can then be rounded values;
    [residues_fit] names that bound. *)
Fixpoint insert_sorted (x : Z) (l : list Z) : list Z :=
  match l with
  | [] => [x]
  | y :: l' => if x <=? y then x :: l else y :: insert_sorted x l'
  end.

Definition sort (l : list Z) : list Z := fold_right insert_sorted [] l.

(** [numpy.ravel] of the list of [\[start, end\]] rows. *)
Definition ravel (rows : list (Z * Z)) : list Z :=
  flat_map (fun r => [fst r; snd r]) rows.

(** [a\[0\]] and [a\[-1\]] *)
Definition index_first (a : list Z) : M Z :=
  match a with
  | [] => raise IndexError
  | x :: _ => ret x
  end.

Definition index_last (a : list Z) : M Z :=
  match rev a with
  | [] => raise IndexError
  | x :: _ => ret x
  end.

(** The values the graph writer formats with [%g]: the integer 0 and the
    floats 0.5 and -0.5. *)
Inductive gnum := G_zero | G_half | G_minus_half.

Definition fmt_g (y : gnum) : str :=
  match y with
  | G_zero => lit "0"
  | G_half => lit "0.5"
  | G_minus_half => lit "-0.5"
  end.

(** ** The class [DomDef] *)

Definition dq (s : str) : str := chr_dquote :: s ++ [chr_dquote].
Definition nl : str := [chr_nl].

(** [transform]: the resid with the offset applied; minimum value is 1. *)
Definition transform (resid : Z) : M Z :=
  o <- get_self ;;
  let x := resid + offset o in
  let x := if x <? 1 then 1 else x in
  ret x.

(** The body of the loop of [load], for one line of the file. *)
Definition load_line (raw : str) : M unit :=
  let line := PyStr.strip raw in
  if (PyStr.startswith "#" line || Nat.eqb (length line) 0)%bool
  then ret tt
  else
    let fields := PyStr.split line in
    if PyStr.startswith "@" line
    then
      match fields with
      | [] => raise IndexError
      | f0 :: rest =>
          let domname := PyStr.drop1 f0 in
          let definition := PyStr.join (lit " ") rest in
          modify_self (fun o =>
            set_compounds (OrderedDict.set domname definition (compounds o)) o)
      end
    else
      match fields with
      | [domname; start_resid; end_resid] =>
          n1 <- py_int start_resid ;;
          r1 <- transform n1 ;;
          n2 <- py_int end_resid ;;
          r2 <- transform n2 ;;
          modify_self (fun o =>
            set_domains (OrderedDict.set domname (r1, r2) (domains o)) o) ;;
          modify_self (fun o =>
            set_domain_order (domain_order o ++ [domname]) o)
      | _ => raise ValueError
      end.

Definition load (path : str) : M unit :=
  content <- read_file path ;;
  for_each (PyStr.lines content) load_line ;;
  o <- get_self ;;
  let resids := sort (ravel (OrderedDict.values (domains o))) in
  x <- index_first resids ;;
  modify_self (set_first x) ;;
  y <- index_last resids ;;
  modify_self (set_last y).

(** [DomDef(path, off)]: [__init__] on a new instance. *)
Definition __init__ (path : str) (off : Z) : M unit :=
  modify_self (fun _ => mkDomDef path (OrderedDict.empty)
                          (OrderedDict.empty) [] off None None) ;;
  load path.

(** The generator [_ordered_domains]: one step per entry of the order
    sequence, each looking its name up in the table. *)
Definition _ordered_domains : M (list (result (str * (Z * Z)))) :=
  o <- get_self ;;
  ret (map (fun domname =>
              match OrderedDict.get domname (domains o) with
              | Some v => OK (domname, v)
              | None => Raise KeyError
              end) (domain_order o)).

(** [_transform]: replace the tokens | & ! by or, and, not. *)
Definition _transform (mode : str) (s : str) : result str :=
  if str_eqb mode (lit "charmm")
  then OK (PyStr.replace "!" (lit " .not. ")
            (PyStr.replace "&" (lit " .and. ")
              (PyStr.replace "|" (lit " .or. ") s)))
  else if str_eqb mode (lit "vmd")
  then OK (PyStr.replace "!" (lit " not ")
            (PyStr.replace "&" (lit " and ")
              (PyStr.replace "|" (lit " or ") s)))
  else if str_eqb mode (lit "pymol")
  then OK (PyStr.replace "!" (lit " not ")
            (PyStr.replace "&" (lit " and ")
              (PyStr.replace "|" (lit " or ") s)))
  else Raise ValueError.

Definition write_header (o : DomDef) : str :=
  lit "# $Id: domdef.py 1155 2010-05-17 17:15:26Z oliver $" ++ nl ++
  lit "# This file is in a format suitable for scripts/domdef.py" ++ nl ++
  lit "# input = " ++ PyStr.repr (filename o) ++ nl ++
  lit "# offset = " ++ PyStr.str_of_int (offset o) ++ nl ++
  nl ++
  lit "# name      start    end" ++ nl.

(** [write]: write as domdef input file. *)
Definition write (path : str) : M unit :=
  with_open_w path (
    o <- get_self ;;
    fwrite (write_header o) ;;
    g <- _ordered_domains ;;
    for_gen g (fun '(domname, (start_resid, end_resid)) =>
      fwrite (PyStr.ljust 11 domname ++ lit " " ++ PyStr.fmt_d 5 start_resid
              ++ lit "  " ++ PyStr.fmt_d 5 end_resid ++ nl)) ;;
    fwrite (lit "# compound statements" ++ nl) ;;
    c <- get_self ;;
    for_each (OrderedDict.items (compounds c)) (fun '(domname, definition) =>
      fwrite (lit "@" ++ PyStr.ljust 11 domname ++ lit "  " ++ definition
              ++ nl))).

Definition vmdmacro (domname : str) (start_resid end_resid : Z) : str :=
  lit "atomselect macro " ++ domname ++ lit " {resid "
  ++ PyStr.str_of_int start_resid ++ lit " to " ++ PyStr.str_of_int end_resid
  ++ lit "}".

Definition vmdcompound (domname definition : str) : str :=
  lit "atomselect macro " ++ domname ++ lit " {" ++ definition ++ lit "}".

Definition charmmselection (domname : str) (start_resid end_resid : Z) : str :=
  lit "define " ++ PyStr.ljust 8 domname ++ lit " select resid "
  ++ PyStr.fmt_d 3 start_resid ++ lit " : " ++ PyStr.fmt_d 3 end_resid
  ++ lit "  end".

Definition charmmcompound (domname definition : str) : str :=
  lit "define " ++ PyStr.ljust 8 domname ++ lit " select " ++ definition
  ++ lit "  end".

Definition pymolselection (domname : str) (start_resid end_resid : Z) : str :=
  lit "select " ++ domname ++ lit ", polymer and resi "
  ++ PyStr.str_of_int start_resid ++ lit "-" ++ PyStr.str_of_int end_resid.

Definition pymolcompound (domname definition : str) : str :=
  lit "select " ++ domname ++ lit ", " ++ definition.

(** The header of the macro writers; [mark] is the comment marker. *)
Definition macro_header (mark : str) (o : DomDef) : str :=
  mark ++ lit " $Id$" ++ nl ++
  mark ++ lit " domain defs from " ++ dq (filename o) ++ nl ++
  mark ++ lit " offset = " ++ PyStr.str_of_int (offset o) ++ nl.

(** [_write_vmd_addrep_domains(tcl, **kwargs)] *)
Definition _write_vmd_addrep_domains
    (colorID : option Z) (material representation : option str) : M unit :=
  let colorID := match colorID with Some c => c | None => 6 end in
  let material :=
    match material with Some m => m | None => lit "AOChalky" end in
  let representation :=
    match representation with Some r => r | None => lit "cartoon" end in
  fwrite (lit "# functions to display representations" ++ nl ++
          lit "puts {usage: addrep_domains [colorID [material [rep]]]}" ++ nl ++
          lit "proc addrep_domains {{color " ++ PyStr.str_of_int colorID
          ++ lit "} {material " ++ material ++ lit "} {representation "
          ++ representation ++ lit "}} {" ++ nl ++
          lit "  mol color ColorID $color" ++ nl ++
          lit "  mol material $material" ++ nl ++
          lit "  mol rep $representation" ++ nl) ;;
  o <- get_self ;;
  fwrite (lit "  set selections "
          ++ dq (PyStr.join (lit " ") (domain_order o)) ++ nl) ;;
  fwrite (lit "  foreach sel $selections {" ++ nl ++
          lit "    mol selection $sel" ++ nl ++
          lit "    mol addrep top" ++ nl ++
          lit "  }" ++ nl) ;;
  fwrite (lit "}" ++ nl).

Definition write_vmd (path : str) : M unit :=
  with_open_w path (
    o <- get_self ;;
    fwrite (macro_header (lit "#") o) ;;
    g <- _ordered_domains ;;
    for_gen g (fun '(domname, (start_resid, end_resid)) =>
      fwrite (vmdmacro domname start_resid end_resid ++ nl)) ;;
    fwrite (lit "# compound statements" ++ nl) ;;
    c <- get_self ;;
    for_each (OrderedDict.items (compounds c)) (fun '(domname, definition) =>
      definition <- lift (_transform (lit "vmd") definition) ;;
      fwrite (vmdcompound domname definition ++ nl)) ;;
    _write_vmd_addrep_domains None None None) ;;
  print (lit "# Load macros with 'source " ++ path ++ lit "' in VMD").

(** The loop of [write_bendix]: [resids.extend((str(start), str(end)))]. *)
Fixpoint bendix_loop (g : list (result (str * (Z * Z)))) (resids : list str)
  : M (list str) :=
  match g with
  | [] => ret resids
  | r :: g' =>
      '(_, (start_resid, end_resid)) <- lift r ;;
      bendix_loop g' (resids ++ [PyStr.str_of_int start_resid;
                                 PyStr.str_of_int end_resid])
  end.

Definition write_bendix (path : str) : M unit :=
  g <- _ordered_domains ;;
  resids <- bendix_loop g [] ;;
  with_open_w path (fwrite (PyStr.join (lit " ") resids ++ nl)) ;;
  print (lit "# Wrote domains to Bendix helix file " ++ PyStr.repr path).

Definition write_pymol (path : str) : M unit :=
  with_open_w path (
    o <- get_self ;;
    fwrite (macro_header (lit "#") o) ;;
    g <- _ordered_domains ;;
    for_gen g (fun '(domname, (start_resid, end_resid)) =>
      fwrite (pymolselection domname start_resid end_resid ++ nl)) ;;
    fwrite (lit "# compound statements" ++ nl) ;;
    c <- get_self ;;
    for_each (OrderedDict.items (compounds c)) (fun '(domname, definition) =>
      definition <- lift (_transform (lit "pymol") definition) ;;
      fwrite (pymolcompound domname definition ++ nl))) ;;
  print (lit "# Load selection with '@" ++ path ++ lit "' in PyMOL").

Definition write_charmm (path : str) : M unit :=
  with_open_w path (
    o <- get_self ;;
    fwrite (macro_header (lit "!") o) ;;
    g <- _ordered_domains ;;
    for_gen g (fun '(domname, (start_resid, end_resid)) =>
      fwrite (charmmselection domname start_resid end_resid ++ nl)) ;;
    fwrite (lit "! compound statements" ++ nl) ;;
    c <- get_self ;;
    for_each (OrderedDict.items (compounds c)) (fun '(domname, definition) =>
      definition <- lift (_transform (lit "charmm") definition) ;;
      fwrite (charmmcompound domname definition ++ nl))) ;;
  print (lit "# Add SELECTION definitons to Charmm script with 'stream "
         ++ dq path ++ lit "'").

(** An attribute that [load] sets; reading it earlier is an
    AttributeError. *)
Definition attr (f : DomDef -> option Z) : M Z :=
  o <- get_self ;;
  match f o with
  | Some z => ret z
  | None => raise AttributeError
  end.

(** One line of the graph: ["%5d  %g\n"]. *)
Definition xvg_point (x : Z) (y : gnum) : str :=
  PyStr.fmt_d 5 x ++ lit "  " ++ fmt_g y ++ nl.

(** The loop of [_write]: it breaks at the first domain that starts
    before the one written last. *)
Fixpoint xvg_loop (yval : gnum) (last_start_resid : Z)
    (g : list (result (str * (Z * Z)))) : M unit :=
  match g with
  | [] => ret tt
  | r :: g' =>
      '(_, (start_resid, end_resid)) <- lift r ;;
      if start_resid <? last_start_resid
      then ret tt
      else
        fwrite (xvg_point start_resid G_zero) ;;
        fwrite (xvg_point start_resid yval) ;;
        fwrite (xvg_point end_resid yval) ;;
        fwrite (xvg_point end_resid G_zero) ;;
        xvg_loop yval start_resid g'
  end.

(** The local function [_write(yval)] of [write_xvg]. *)
Definition _write (yval : gnum) : M unit :=
  let zero := G_zero in
  last_start_resid <- attr first ;;
  fwrite (xvg_point last_start_resid zero) ;;
  g <- _ordered_domains ;;
  xvg_loop yval last_start_resid g ;;
  z <- attr last ;;
  fwrite (xvg_point z zero).

Definition xvg_header (o : DomDef) : str :=
  lit "# $Id: domdef.py 1155 2010-05-17 17:15:26Z oliver $" ++ nl ++
  lit "# input = " ++ PyStr.repr (filename o) ++ nl ++
  lit "# offset = " ++ PyStr.str_of_int (offset o) ++ nl.

(** [write_xvg]: write the secondary structure graph. *)
Definition write_xvg (path : str) : M unit :=
  with_open_w path (
    o <- get_self ;;
    fwrite (xvg_header o) ;;
    _write G_half ;;
    fwrite (lit "&" ++ nl) ;;
    _write G_minus_half) ;;
  print (lit "# Wrote xvg file with secondary structure graph").

(** ** Reference definitions

    What the theorems below compare the code with: the meaning of one line
    of the input file, the text each writer is expected to leave in its
    file, and the token table of the specification. *)

(** A line that [load] skips: a comment or an empty line. *)
Definition is_skipped (raw : str) : bool :=
  let line := PyStr.strip raw in
  (PyStr.startswith "#" line || Nat.eqb (length line) 0)%bool.

(** A compound line: not skipped, and introduced by [@]. *)
Definition is_compound (raw : str) : bool :=
  (negb (is_skipped raw) && PyStr.startswith "@" (PyStr.strip raw))%bool.

(** A simple line: one that has to be a domain definition. *)
Definition is_simple (raw : str) : bool :=
  (negb (is_skipped raw) && negb (PyStr.startswith "@" (PyStr.strip raw)))%bool.

Definition fields_of (raw : str) : list str := PyStr.split (PyStr.strip raw).

Definition clamp (off x : Z) : Z := Z.max 1 (x + off).

(** The domain definition a simple line makes under offset [off]. *)
Definition domain_def (off : Z) (raw : str) : option (str * (Z * Z)) :=
  if is_simple raw then
    match fields_of raw with
    | [n; a; b] =>
        match PyStr.int_literal a, PyStr.int_literal b with
        | Some x, Some y => Some (n, (clamp off x, clamp off y))
        | _, _ => None
        end
    | _ => None
    end
  else None.

(** The compound definition a compound line makes. *)
Definition compound_def (raw : str) : option (str * str) :=
  if is_compound raw then
    match fields_of raw with
    | f0 :: rest => Some (PyStr.drop1 f0, PyStr.join (lit " ") rest)
    | [] => None
    end
  else None.

(** A simple line that is not a domain definition: it does not split into
    three fields, or its second or third field is no integer literal. *)
Definition malformed (raw : str) : bool :=
  (is_simple raw &&
   match fields_of raw with
   | [_; a; b] =>
       match PyStr.int_literal a, PyStr.int_literal b with
       | Some _, Some _ => false
       | _, _ => true
       end
   | _ => true
   end)%bool.

(** The lines the specification says fail the load: a simple line without
    exactly three fields, or a compound line with an empty name. *)
Definition spec_format_error (raw : str) : bool :=
  ((is_simple raw && negb (Nat.eqb (length (fields_of raw)) 3))
   || (is_compound raw &&
       match fields_of raw with
       | f0 :: _ => Nat.eqb (length (PyStr.drop1 f0)) 0
       | [] => true
       end))%bool.

Definition opt_list {A} (x : option A) : list A :=
  match x with Some a => [a] | None => [] end.

(** The definitions of a file, in the order of its lines. *)
Definition domain_defs (off : Z) (content : str) : list (str * (Z * Z)) :=
  flat_map (fun raw => opt_list (domain_def off raw)) (PyStr.lines content).

Definition compound_defs (content : str) : list (str * str) :=
  flat_map (fun raw => opt_list (compound_def raw)) (PyStr.lines content).

(** The table that a sequence of assignments builds. *)
Definition assign_all {V} (defs : list (str * V)) (d : OrderedDict.t V)
  : OrderedDict.t V :=
  fold_left (fun d kv => OrderedDict.set (fst kv) (snd kv) d) defs d.

(** The range of the last definition of [name], if there is one. *)
Definition last_def {V} (name : str) (defs : list (str * V)) : option V :=
  fold_left (fun acc kv => if str_eqb (fst kv) name then Some (snd kv) else acc)
            defs None.

(** The (name, range) pairs the serializers walk: the order sequence, each
    name with its entry of the table. *)
Definition ordered_items (o : DomDef) : list (str * (Z * Z)) :=
  flat_map (fun n => opt_list (option_map (pair n)
                                 (OrderedDict.get n (domains o))))
           (domain_order o).

(** The text of a template-driven writer: header, one line per entry of
    the order sequence, the marker, one line per compound. *)
Definition body_text (header : str)
    (domline : str -> Z -> Z -> str) (marker : str)
    (compline : str -> str -> str) (o : DomDef) : str :=
  header
  ++ flat_map (fun d => domline (fst d) (fst (snd d)) (snd (snd d)) ++ nl)
              (ordered_items o)
  ++ marker ++ nl
  ++ flat_map (fun c => compline (fst c) (snd c) ++ nl) (compounds o).

Definition write_domline (n : str) (s e : Z) : str :=
  PyStr.ljust 11 n ++ lit " " ++ PyStr.fmt_d 5 s ++ lit "  " ++ PyStr.fmt_d 5 e.

Definition write_compline (n d : str) : str :=
  lit "@" ++ PyStr.ljust 11 n ++ lit "  " ++ d.

Definition write_text (o : DomDef) : str :=
  body_text (write_header o) write_domline (lit "# compound statements")
            write_compline o.

(** The rows of the token table of the specification. *)
Inductive target := ToolA | ToolB | ToolC.

Definition target_of_mode (mode : str) : option target :=
  if str_eqb mode (lit "vmd") then Some ToolA
  else if str_eqb mode (lit "pymol") then Some ToolB
  else if str_eqb mode (lit "charmm") then Some ToolC
  else None.

Definition token (t : target) (c : ascii) : option str :=
  match t with
  | ToolA | ToolB =>
      if Ascii.eqb c "|" then Some (lit " or ")
      else if Ascii.eqb c "&" then Some (lit " and ")
      else if Ascii.eqb c "!" then Some (lit " not ")
      else None
  | ToolC =>
      if Ascii.eqb c "|" then Some (lit " .or. ")
      else if Ascii.eqb c "&" then Some (lit " .and. ")
      else if Ascii.eqb c "!" then Some (lit " .not. ")
      else None
  end.

(** Every character is rewritten on its own: an operator character becomes
    its token, any other character stays. *)
Definition substitute_tokens (t : target) (s : str) : str :=
  flat_map (fun c => match token t c with Some tok => tok | None => [c] end) s.

Definition is_operator (c : ascii) : bool :=
  (Ascii.eqb c "|" || Ascii.eqb c "&" || Ascii.eqb c "!")%bool.

(** The text of the other macro writers. *)
Definition vmd_addrep_text (o : DomDef) : str :=
  lit "# functions to display representations" ++ nl ++
  lit "puts {usage: addrep_domains [colorID [material [rep]]]}" ++ nl ++
  lit "proc addrep_domains {{color 6} {material AOChalky} {representation cartoon}} {"
  ++ nl ++
  lit "  mol color ColorID $color" ++ nl ++
  lit "  mol material $material" ++ nl ++
  lit "  mol rep $representation" ++ nl ++
  lit "  set selections " ++ dq (PyStr.join (lit " ") (domain_order o)) ++ nl ++
  lit "  foreach sel $selections {" ++ nl ++
  lit "    mol selection $sel" ++ nl ++
  lit "    mol addrep top" ++ nl ++
  lit "  }" ++ nl ++
  lit "}" ++ nl.

Definition vmd_text (o : DomDef) : str :=
  body_text (macro_header (lit "#") o) vmdmacro (lit "# compound statements")
            (fun n d => vmdcompound n (substitute_tokens ToolA d)) o
  ++ vmd_addrep_text o.

Definition pymol_text (o : DomDef) : str :=
  body_text (macro_header (lit "#") o) pymolselection
            (lit "# compound statements")
            (fun n d => pymolcompound n (substitute_tokens ToolB d)) o.

Definition charmm_text (o : DomDef) : str :=
  body_text (macro_header (lit "!") o) charmmselection
            (lit "! compound statements")
            (fun n d => charmmcompound n (substitute_tokens ToolC d)) o.

Definition bendix_text (o : DomDef) : str :=
  PyStr.join (lit " ")
    (flat_map (fun d => [PyStr.str_of_int (fst (snd d));
                         PyStr.str_of_int (snd (snd d))]) (ordered_items o))
  ++ nl.

(** The four corners of one domain in the graph. *)
Definition xvg_rect (yval : gnum) (d : str * (Z * Z)) : str :=
  xvg_point (fst (snd d)) G_zero ++ xvg_point (fst (snd d)) yval
  ++ xvg_point (snd (snd d)) yval ++ xvg_point (snd (snd d)) G_zero.

(** One pass of the graph over the domains it visits. *)
Definition xvg_pass (yval : gnum) (lo hi : Z)
    (visited : list (str * (Z * Z))) : str :=
  xvg_point lo G_zero ++ flat_map (xvg_rect yval) visited
  ++ xvg_point hi G_zero.

(** The domains a pass visits: the longest prefix in which no domain
    starts before its predecessor ([prev] is where the walk stands). *)
Fixpoint xvg_visited (prev : Z) (items : list (str * (Z * Z)))
  : list (str * (Z * Z)) :=
  match items with
  | [] => []
  | d :: rest =>
      if fst (snd d) <? prev then [] else d :: xvg_visited (fst (snd d)) rest
  end.

Definition start_of (d : str * (Z * Z)) : Z := fst (snd d).

(** Starts that never decrease, and starts that strictly increase. *)
Fixpoint nondecreasing (l : list Z) : Prop :=
  match l with
  | x :: ((y :: _) as l') => x <= y /\ nondecreasing l'
  | _ => True
  end.

Fixpoint increasing (l : list Z) : Prop :=
  match l with
  | x :: ((y :: _) as l') => x < y /\ increasing l'
  | _ => True
  end.

(** An instance that the constructor has returned: [o] was loaded from
    [content] with offset [off]. *)
Definition LoadedFrom (content : str) (off : Z) (o : DomDef) : Prop :=
  exists st0 path st1,
    fs st0 path = Some content /\
    __init__ path off st0 = (OK tt, st1) /\
    self st1 = o.

Definition Loaded (o : DomDef) : Prop :=
  exists content off, LoadedFrom content off o.

(** An instance with nothing in it and a disk with one file, to run the
    code on; every path can be opened for writing. *)
Definition blank : DomDef := mkDomDef [] [] [] [] 0 None None.

Definition disk (path content : str) : State :=
  mkState blank (fs_set path content (fun _ => None)) [] [] (fun _ => true).

(** A computation that leaves the instance as it found it, whatever its
    outcome. *)
Definition frames {A} (m : M A) : Prop :=
  forall st, self (snd (m st)) = self st.

(** Strings without whitespace, and strings of whitespace only. *)
Definition nospace (s : str) : bool :=
  forallb (fun c => negb (PyStr.isspace c)) s.

Definition allspace (s : str) : bool := forallb PyStr.isspace s.

(** A field as [split] returns them: not empty, no whitespace. *)
Definition is_field (w : str) : bool :=
  (negb (Nat.eqb (length w) 0) && nospace w)%bool.

(** The keys of a table after one more assignment. *)
Definition add_key (ks : list str) (k : str) : list str :=
  if existsb (fun k' => str_eqb k' k) ks then ks else ks ++ [k].

(** Every name of the order sequence has an entry in the table. *)
Definition order_in_table (o : DomDef) : Prop :=
  Forall (fun n => OrderedDict.get n (domains o) <> None) (domain_order o).

(** The state with the three containers of the instance replaced. *)
Definition with_tables (d : OrderedDict.t (Z * Z)) (c : OrderedDict.t str)
    (ord : list str) (st : State) : State :=
  mkState (mkDomDef (filename (self st)) d c ord (offset (self st))
                    (first (self st)) (last (self st)))
          (fs st) (buf st) (stdout st) (writable st).

(** What the constructor makes of a file: the instance, or the exception
    it raises. *)
Definition model_of (path : str) (off : Z) (content : str) : result DomDef :=
  if existsb malformed (PyStr.lines content) then Raise ValueError
  else
    let defs := domain_defs off content in
    let d := assign_all defs OrderedDict.empty in
    let c := assign_all (compound_defs content) OrderedDict.empty in
    let resids := sort (ravel (OrderedDict.values d)) in
    match resids, rev resids with
    | x :: _, y :: _ =>
        OK (mkDomDef path d c (map fst defs) off (Some x) (Some y))
    | _, _ => Raise IndexError
    end.

(** Strings without a newline. *)
Definition no_nl (s : str) : bool :=
  forallb (fun c => negb (Ascii.eqb c chr_nl)) s.

(** What [load] reads out of a text: whether a line is malformed, the
    domain definitions and the compound definitions. *)
Definition sem (off : Z) (text : str)
  : bool * list (str * (Z * Z)) * list (str * str) :=
  (existsb malformed (PyStr.lines text), domain_defs off text,
   compound_defs text).

(** Every residue of the domain table is below 2^63, so that the array
    numpy builds of them holds 64-bit integers. *)
Definition residues_fit (o : DomDef) : Prop :=
  forallb (fun v => v <? 2 ^ 63) (ravel (OrderedDict.values (domains o)))
  = true.

(** The entry of the table under a name of the order sequence. *)
Definition range_of (o : DomDef) (n : str) : Z * Z :=
  match OrderedDict.get n (domains o) with
  | Some v => v
  | None => (0, 0)
  end.

(** ** Example inputs *)

(** A text from its lines. *)
Definition unlines (l : list string) : str :=
  flat_map (fun s => lit s ++ nl) l.

(** The state after [DomDef("in.dat", off)] on a disk that holds
    [content] under that name. *)
Definition loaded_state (off : Z) (content : str) : State :=
  snd (__init__ (lit "in.dat") off (disk (lit "in.dat") content)).



Definition ex_no_domains : str :=
  unlines ["# only compounds"; " "; "@both A | B"]%string.

Definition ex_empty_name : str := unlines ["@ A | B"; "D 1 2"]%string.

Definition ex_not_integer : str := unlines ["D x y"]%string.

Definition ex_two_fields : str := unlines ["A 1 5"; "B 10"]%string.

Definition ex_third_starts_early : str :=
  unlines ["A 1 5"; "B 10 20"; "C 7 9"]%string.

Definition ex_redefined : str :=
  unlines ["A 1 5"; "B 10 20"; "# again"; "A 2 6"; "@ab A | B"]%string.

(** What [load] guarantees of a domain definition and of a compound
    definition: the name is a field that starts neither a comment nor a
    compound line, the residues are at least 1; the name of a compound
    has no whitespace, and its definition is a sequence of fields with
    single spaces between them. *)
Definition good_domain (d : str * (Z * Z)) : bool :=
  (is_field (fst d)
   && negb (PyStr.startswith "#" (fst d))
   && negb (PyStr.startswith "@" (fst d))
   && (1 <=? fst (snd d)) && (1 <=? snd (snd d)))%bool.

Definition good_compound (c : str * str) : bool :=
  (nospace (fst c)
   && str_eqb (PyStr.join (lit " ") (PyStr.split (snd c))) (snd c))%bool.

(** ** The command-line driver

    The statements of the script after [parser.parse_args()]: the parsed
    options and the positional arguments are the inputs. *)

(** A value that [int()] is applied to: the default offset is the integer
    0, an offset given on the command line is a string. *)
Inductive pyarg :=
| ArgInt (z : Z)
| ArgStr (s : str).


(** [opts]: one destination per output option, and the offset. *)
Record Options := mkOptions {
  opt_filename : option str;
  opt_vmdfilename : option str;
  opt_bendixfilename : option str;
  opt_pymolfilename : option str;
  opt_charmmfilename : option str;
  opt_xvgfilename : option str;
  opt_offset : pyarg
}.

(** [parser.set_defaults(offset=0, filename='/dev/stdout')] *)
Definition default_options : Options :=
  mkOptions (Some (lit "/dev/stdout")) None None None None None (ArgInt 0).



(** ** More reference definitions *)

(** A computation that leaves one component of the state as it found it,
    whatever its outcome. *)
Definition keeps {X A} (proj : State -> X) (m : M A) : Prop :=
  forall st, proj (snd (m st)) = proj st.

(** A computation that changes no file but [path]. *)
Definition writes_only {A} (path : str) (m : M A) : Prop :=
  forall st p, p <> path -> fs (snd (m st)) p = fs st p.

(** The names of a sequence in the order of their first occurrence. *)
Definition first_occurrences (ns : list str) : list str :=
  fold_left add_key ns [].

(** A table with the offset transform applied to every residue. *)
Definition shift_range (k : Z) (d : str * (Z * Z)) : str * (Z * Z) :=
  (fst d, (clamp k (fst (snd d)), clamp k (snd (snd d)))).

Definition shift_table (k : Z) (d : OrderedDict.t (Z * Z))
  : OrderedDict.t (Z * Z) :=
  map (shift_range k) d.






Definition ex_offsets : str := unlines ["A 1 5"; "B 10 20"]%string.





(** * Properties *)

(** ** Python strings: [strip], [split], [join] *)

Module PyStrFacts.
Import PyStr.

Lemma dropwhile_app_stop p l c r :
  p c = false -> dropwhile p (l ++ c :: r) = dropwhile p l ++ c :: r.
Proof.
  intros Hc. induction l as [| d l IH]; simpl.
  - now rewrite Hc.
  - destruct (p d); [exact IH | reflexivity].
Qed.

Lemma dropwhile_decomp p l :
  exists w, l = w ++ dropwhile p l /\ forallb p w = true.
Proof.
  induction l as [| c l (w & Hl & Hw)]; simpl.
  - now exists [].
  - destruct (p c) eqn:Hc.
    + exists (c :: w). simpl. rewrite Hc, Hw. split; [now f_equal | reflexivity].
    + now exists [].
Qed.

Lemma dropwhile_nospace l :
  nospace l = true -> dropwhile isspace l = l.
Proof.
  destruct l as [| c l]; simpl; [reflexivity |].
  intros H. apply andb_prop in H as [Hc _].
  now destruct (isspace c).
Qed.

Lemma nospace_app a b : nospace (a ++ b) = (nospace a && nospace b)%bool.
Proof. apply forallb_app. Qed.

Lemma nospace_rev a : nospace (rev a) = nospace a.
Proof.
  induction a as [| c a IH]; simpl; [reflexivity |].
  rewrite nospace_app, IH. simpl. now rewrite andb_true_r, andb_comm.
Qed.

Lemma allspace_app a b : allspace (a ++ b) = (allspace a && allspace b)%bool.
Proof. apply forallb_app. Qed.

Lemma allspace_rev a : allspace (rev a) = allspace a.
Proof.
  induction a as [| c a IH]; simpl; [reflexivity |].
  rewrite allspace_app, IH. simpl. now rewrite andb_true_r, andb_comm.
Qed.

Lemma allspace_spaces n : allspace (spaces n) = true.
Proof. induction n; simpl; auto. Qed.

(** *** strip *)

Lemma rstrip_decomp s :
  exists w, s = rstrip s ++ w /\ allspace w = true.
Proof.
  destruct (dropwhile_decomp isspace (rev s)) as (w & Hs & Hw).
  exists (rev w). split.
  - unfold rstrip. rewrite <- rev_app_distr, <- Hs. now rewrite rev_involutive.
  - now rewrite allspace_rev.
Qed.

Lemma lstrip_decomp s :
  exists w, s = w ++ lstrip s /\ allspace w = true.
Proof. apply dropwhile_decomp. Qed.

Lemma rstrip_cons c t :
  isspace c = false -> exists t', rstrip (c :: t) = c :: t'.
Proof.
  intros Hc. unfold rstrip. simpl.
  rewrite (dropwhile_app_stop isspace (rev t) c [] Hc).
  rewrite rev_app_distr. simpl. eauto.
Qed.

Lemma strip_cons c t :
  isspace c = false -> exists t', strip (c :: t) = c :: t'.
Proof.
  intros Hc. unfold strip, lstrip. simpl. rewrite Hc. now apply rstrip_cons.
Qed.

Lemma strip_nospace w : nospace w = true -> strip w = w.
Proof.
  intros H. unfold strip, lstrip, rstrip.
  rewrite (dropwhile_nospace w H).
  rewrite dropwhile_nospace by now rewrite nospace_rev.
  apply rev_involutive.
Qed.

Lemma lstrip_head s :
  match lstrip s with [] => True | c :: _ => isspace c = false end.
Proof.
  unfold lstrip. induction s as [| c s IH]; simpl; [exact I |].
  destruct (isspace c) eqn:Hc; [exact IH | exact Hc].
Qed.

(** A stripped line is empty or starts with a character that is no
    whitespace. *)
Lemma strip_head s :
  match strip s with [] => True | c :: _ => isspace c = false end.
Proof.
  unfold strip. pose proof (lstrip_head s) as H.
  destruct (lstrip s) as [| c t]; [exact I |].
  destruct (rstrip_cons c t H) as (t' & ->). exact H.
Qed.

(** *** split *)

Lemma split_aux_snoc_space c : isspace c = true ->
  forall s cur, split_aux cur (s ++ [c]) = split_aux cur s.
Proof.
  intros Hc. induction s as [| d s IH]; intros cur; simpl.
  - rewrite Hc. now destruct cur.
  - destruct (isspace d); [destruct cur |]; now rewrite IH.
Qed.

Lemma split_aux_app_space w : allspace w = true ->
  forall s cur, split_aux cur (s ++ w) = split_aux cur s.
Proof.
  induction w as [| c w IH]; intros Hw s cur.
  - now rewrite app_nil_r.
  - simpl in Hw. apply andb_prop in Hw as [Hc Hw].
    change (s ++ c :: w) with (s ++ [c] ++ w). rewrite app_assoc.
    rewrite IH by assumption. now apply split_aux_snoc_space.
Qed.

Lemma split_allspace_app w rest :
  allspace w = true -> split (w ++ rest) = split rest.
Proof.
  unfold split. induction w as [| c w IH]; simpl; [reflexivity |].
  intros H. apply andb_prop in H as [Hc Hw]. rewrite Hc. auto.
Qed.

Lemma split_lstrip s : split (lstrip s) = split s.
Proof.
  destruct (lstrip_decomp s) as (w & Hs & Hw).
  rewrite Hs at 2. now rewrite split_allspace_app.
Qed.

Lemma split_rstrip s : split (rstrip s) = split s.
Proof.
  destruct (rstrip_decomp s) as (w & Hs & Hw).
  rewrite Hs at 2. unfold split. now rewrite split_aux_app_space.
Qed.

Lemma split_strip s : split (strip s) = split s.
Proof. unfold strip. now rewrite split_rstrip, split_lstrip. Qed.

Lemma split_aux_word w : nospace w = true ->
  forall cur rest, split_aux cur (w ++ rest) = split_aux (rev w ++ cur) rest.
Proof.
  induction w as [| c w IH]; intros Hw cur rest; simpl; [reflexivity |].
  simpl in Hw. apply andb_prop in Hw as [Hc Hw].
  destruct (isspace c); [discriminate |].
  rewrite IH by assumption. now rewrite <- app_assoc.
Qed.

Lemma split_word_ws w c rest :
  is_field w = true -> isspace c = true ->
  split (w ++ c :: rest) = w :: split rest.
Proof.
  intros Hw Hc. apply andb_prop in Hw as [Hne Hw].
  unfold split. rewrite split_aux_word by assumption.
  simpl. rewrite Hc, app_nil_r.
  destruct (rev w) eqn:Hr.
  - apply (f_equal (@rev ascii)) in Hr. rewrite rev_involutive in Hr.
    subst w. discriminate.
  - now rewrite <- Hr, rev_involutive.
Qed.

Lemma split_word_end w : is_field w = true -> split w = [w].
Proof.
  intros Hw. apply andb_prop in Hw as [Hne Hw].
  unfold split. rewrite <- (app_nil_r w) at 1.
  rewrite split_aux_word by assumption. simpl. rewrite app_nil_r.
  destruct (rev w) eqn:Hr.
  - apply (f_equal (@rev ascii)) in Hr. rewrite rev_involutive in Hr.
    subst w. discriminate.
  - now rewrite <- Hr, rev_involutive.
Qed.

(** A word followed by at least one whitespace character. *)
Lemma split_word_gap w ws rest :
  is_field w = true -> allspace ws = true -> ws <> [] ->
  split (w ++ ws ++ rest) = w :: split rest.
Proof.
  intros Hw Hws Hne. destruct ws as [| c ws]; [congruence |].
  simpl in Hws. apply andb_prop in Hws as [Hc Hws].
  simpl. rewrite split_word_ws by assumption.
  now rewrite split_allspace_app.
Qed.

Lemma split_aux_fields s : forall cur,
  nospace cur = true ->
  Forall (fun f => is_field f = true) (split_aux cur s).
Proof.
  assert (Hrev : forall cur, cur <> [] -> nospace cur = true ->
                             is_field (rev cur) = true).
  { intros cur Hne Hcur. unfold is_field. rewrite nospace_rev, Hcur.
    rewrite length_rev. now destruct cur. }
  induction s as [| c s IH]; intros cur Hcur; simpl.
  - destruct cur as [| d cur]; constructor; [| constructor].
    now apply Hrev.
  - destruct (isspace c) eqn:Hc.
    + destruct cur as [| d cur]; [now apply IH |].
      constructor; [now apply Hrev | now apply IH].
    + apply IH. simpl. now rewrite Hc.
Qed.

Lemma split_fields s : Forall (fun f => is_field f = true) (split s).
Proof. now apply split_aux_fields. Qed.

(** The first field starts where the line starts. *)
Lemma split_aux_first s : forall cur, cur <> [] ->
  exists w r, split_aux cur s = (rev cur ++ w) :: r.
Proof.
  induction s as [| c s IH]; intros cur Hne; simpl.
  - destruct cur; [congruence |]. exists [], []. now rewrite app_nil_r.
  - destruct (isspace c).
    + destruct cur; [congruence |]. exists [], (split_aux [] s).
      now rewrite app_nil_r.
    + destruct (IH (c :: cur)) as (w & r & ->); [discriminate |].
      exists (c :: w), r. simpl. now rewrite <- app_assoc.
Qed.

Lemma split_first c t :
  isspace c = false -> exists w r, split (c :: t) = (c :: w) :: r.
Proof.
  intros Hc. unfold split. simpl. rewrite Hc.
  destruct (split_aux_first t [c]) as (w & r & ->); [discriminate |].
  now exists w, r.
Qed.

(** *** join *)

Lemma split_join fs :
  Forall (fun f => is_field f = true) fs -> split (join (lit " ") fs) = fs.
Proof.
  induction 1 as [| f fs Hf Hfs IH]; [reflexivity |].
  destruct fs as [| g fs].
  - simpl. now apply split_word_end.
  - change (join (lit " ") (f :: g :: fs))
      with (f ++ " "%char :: join (lit " ") (g :: fs)).
    rewrite split_word_ws by (assumption || reflexivity). now rewrite IH.
Qed.

Lemma nospace_no_nl w : nospace w = true -> ~ In chr_nl w.
Proof.
  unfold nospace. rewrite forallb_forall. intros H Hin.
  now specialize (H _ Hin).
Qed.

Lemma join_no_nl fs :
  Forall (fun f => is_field f = true) fs -> ~ In chr_nl (join (lit " ") fs).
Proof.
  induction 1 as [| f fs Hf Hfs IH]; [now simpl |].
  apply andb_prop in Hf as [_ Hf].
  destruct fs as [| g fs].
  - simpl. now apply nospace_no_nl.
  - change (join (lit " ") (f :: g :: fs))
      with (f ++ " "%char :: join (lit " ") (g :: fs)).
    rewrite in_app_iff. intros [Hin | [Hin | Hin]].
    + now apply (nospace_no_nl _ Hf).
    + discriminate.
    + now apply IH.
Qed.

(** *** lines *)

Lemma lines_aux_line l : ~ In chr_nl l ->
  forall cur rest,
    lines_aux cur (l ++ chr_nl :: rest)
    = (rev cur ++ l ++ [chr_nl]) :: lines_aux [] rest.
Proof.
  induction l as [| c l IH]; intros Hl cur rest; simpl.
  - reflexivity.
  - destruct (Ascii.eqb_spec c chr_nl) as [-> | Hc].
    + exfalso. apply Hl. now left.
    + rewrite IH by (intros Hin; apply Hl; now right).
      simpl. now rewrite <- app_assoc.
Qed.

Lemma lines_line l rest : ~ In chr_nl l ->
  lines (l ++ chr_nl :: rest) = (l ++ [chr_nl]) :: lines rest.
Proof. intros Hl. unfold lines. now rewrite lines_aux_line. Qed.

(** *** digits *)

Lemma uint_of_digits_of_uint u : uint_of_digits (digits_of_uint u) = Some u.
Proof. induction u; simpl; try rewrite IHu; reflexivity. Qed.

Lemma digits_nospace u : nospace (digits_of_uint u) = true.
Proof. induction u; simpl; auto. Qed.

Lemma digits_head u :
  match digits_of_uint u with
  | [] => u = Decimal.Nil
  | c :: _ => Ascii.eqb c "-" = false /\ Ascii.eqb c "+" = false
  end.
Proof. destruct u; simpl; auto. Qed.

Lemma unsigned_literal_digits p :
  unsigned_literal (digits_of_uint (Pos.to_uint p)) = Some (Zpos p).
Proof.
  unfold unsigned_literal.
  pose proof (digits_head (Pos.to_uint p)) as Hh.
  destruct (digits_of_uint (Pos.to_uint p)) eqn:Hd.
  - now apply DecimalPos.Unsigned.to_uint_nonnil in Hh.
  - rewrite <- Hd, uint_of_digits_of_uint. simpl.
    unfold Z.of_uint. now rewrite DecimalPos.Unsigned.of_to.
Qed.

(** [int(str(z)) == z] *)
Lemma int_literal_str_of_int z : int_literal (str_of_int z) = Some z.
Proof.
  destruct z as [| p | p]; [reflexivity | |].
  - unfold str_of_int, int_literal.
    pose proof (digits_head (Pos.to_uint p)) as Hh.
    pose proof (unsigned_literal_digits p) as Hu.
    destruct (digits_of_uint (Pos.to_uint p)) as [| c t]; [discriminate |].
    destruct Hh as [-> ->]. exact Hu.
  - unfold str_of_int, int_literal. simpl.
    now rewrite unsigned_literal_digits.
Qed.

Lemma str_of_int_field z : is_field (str_of_int z) = true.
Proof.
  unfold is_field.
  assert (Hn : nospace (str_of_int z) = true).
  { destruct z; simpl; auto using digits_nospace. }
  rewrite Hn, andb_true_r.
  destruct z as [| p | p]; [reflexivity | | reflexivity].
  simpl. pose proof (digits_head (Pos.to_uint p)) as Hh.
  destruct (digits_of_uint (Pos.to_uint p)); [| reflexivity].
  now apply DecimalPos.Unsigned.to_uint_nonnil in Hh.
Qed.

(** *** repr *)

Lemma hex_digit_no_nl n : hex_digit n <> chr_nl.
Proof.
  unfold hex_digit.
  do 16 (destruct n as [| n]; [discriminate |]).
  simpl. destruct n; discriminate.
Qed.

Lemma repr_char_no_nl q c : q <> chr_nl -> ~ In chr_nl (repr_char q c).
Proof.
  intros Hq. unfold repr_char.
  destruct (Ascii.eqb_spec c q) as [-> | Hcq]; simpl.
  - intros [H | [H | []]]; [discriminate | congruence].
  - destruct (Ascii.eqb_spec c chr_backslash) as [-> | Hb]; simpl.
    + intros [H | [H | []]]; discriminate.
    + destruct (Ascii.eqb_spec c chr_tab);
        [intros [H | [H | []]]; discriminate |].
      destruct (Ascii.eqb_spec c chr_nl);
        [intros [H | [H | []]]; discriminate |].
      destruct (Ascii.eqb_spec c chr_cr);
        [intros [H | [H | []]]; discriminate |].
      destruct (_ || _)%bool.
      * intros [H | [H | [H | [H | []]]]]; try discriminate;
          now apply hex_digit_no_nl in H.
      * intros [H | []]. congruence.
Qed.

Lemma repr_no_nl s : ~ In chr_nl (repr s).
Proof.
  unfold repr.
  assert (Hq : repr_quote s <> chr_nl).
  { unfold repr_quote. destruct (_ && _)%bool; discriminate. }
  intros [H | H]; [congruence |].
  apply in_app_iff in H as [H | [H | []]]; [| congruence].
  apply in_flat_map in H as (c & _ & H).
  now apply (repr_char_no_nl _ c Hq).
Qed.

End PyStrFacts.

(** ** Ordered dictionaries *)

Lemma str_eqb_eq a b : str_eqb a b = true <-> a = b.
Proof. unfold str_eqb. destruct (list_eq_dec ascii_dec a b); intuition congruence. Qed.

Lemma str_eqb_refl a : str_eqb a a = true.
Proof. now apply str_eqb_eq. Qed.

Lemma str_eqb_neq a b : a <> b -> str_eqb a b = false.
Proof. unfold str_eqb. destruct (list_eq_dec ascii_dec a b); congruence. Qed.

Module OrderedDictFacts.
Import OrderedDict.

Section Facts.
Context {V : Type}.
Implicit Types (d : t V) (k : str) (v : V).

Lemma get_set k k' v d :
  get k' (set k v d) = if str_eqb k k' then Some v else get k' d.
Proof.
  induction d as [| [k0 v0] d IH]; simpl.
  - reflexivity.
  - destruct (str_eqb k0 k) eqn:Hk; simpl.
    + apply str_eqb_eq in Hk as ->. now destruct (str_eqb k k').
    + rewrite IH. destruct (str_eqb k0 k') eqn:Hk'; [| reflexivity].
      apply str_eqb_eq in Hk'. subst k0.
      destruct (str_eqb k k') eqn:E; [| reflexivity].
      apply str_eqb_eq in E. subst k'. now rewrite str_eqb_refl in Hk.
Qed.

Lemma existsb_key k ks :
  existsb (fun k' => str_eqb k' k) ks = true <-> In k ks.
Proof.
  rewrite existsb_exists. split.
  - intros (x & Hin & Hx). now apply str_eqb_eq in Hx as <-.
  - intros Hin. exists k. now rewrite str_eqb_refl.
Qed.

Lemma keys_set k v d : keys (set k v d) = add_key (keys d) k.
Proof.
  unfold add_key, keys. induction d as [| [k0 v0] d IH]; simpl.
  - reflexivity.
  - destruct (str_eqb k0 k) eqn:Hk; simpl; [reflexivity |].
    rewrite IH. now destruct (existsb _ _).
Qed.

Lemma NoDup_add_key ks k : NoDup ks -> NoDup (add_key ks k).
Proof.
  intros H. unfold add_key.
  destruct (existsb _ ks) eqn:He; [assumption |].
  apply NoDup_app.
  - assumption.
  - constructor; [intros [] | constructor].
  - intros x Hx [Hk | []]. subst x.
    apply (existsb_key k ks) in Hx. congruence.
Qed.

Lemma get_none k d : get k d = None <-> ~ In k (keys d).
Proof.
  unfold keys. induction d as [| [k0 v0] d IH]; simpl.
  - tauto.
  - destruct (str_eqb k0 k) eqn:Hk.
    + apply str_eqb_eq in Hk. split; [discriminate | tauto].
    + rewrite IH. split; [| tauto].
      intros Hn [-> | Hin]; [| tauto]. now rewrite str_eqb_refl in Hk.
Qed.

(** Two tables with the same keys in the same order and the same value
    under every key are the same table. *)
Lemma ext d1 : forall d2,
  keys d1 = keys d2 -> (forall k, get k d1 = get k d2) ->
  NoDup (keys d1) -> d1 = d2.
Proof.
  induction d1 as [| [k1 v1] d1 IH]; intros [| [k2 v2] d2] Hk Hg Hnd;
    try discriminate; [reflexivity |].
  simpl in Hk. injection Hk as <- Hk.
  pose proof (Hg k1) as H1. simpl in H1. rewrite str_eqb_refl in H1.
  injection H1 as <-.
  inversion Hnd as [| ? ? Hnotin Hnd']; subst.
  f_equal. apply IH; [assumption | | assumption].
  intros k. specialize (Hg k). simpl in Hg.
  destruct (str_eqb k1 k) eqn:Hkk; [| assumption].
  apply str_eqb_eq in Hkk as <-.
  transitivity (@None V); [| symmetry]; apply get_none; congruence.
Qed.

Lemma set_fresh k v d : ~ In k (keys d) -> set k v d = d ++ [(k, v)].
Proof.
  unfold keys. induction d as [| [k0 v0] d IH]; simpl; [reflexivity |].
  intros Hn. rewrite str_eqb_neq by tauto. rewrite IH by tauto.
  reflexivity.
Qed.

Lemma assign_all_app (l1 l2 : list (str * V)) d :
  assign_all (l1 ++ l2) d = assign_all l2 (assign_all l1 d).
Proof. apply fold_left_app. Qed.

(** Assigning the items of a table to an empty one gives the table
    back. *)
Lemma assign_all_fresh (l : list (str * V)) : forall acc,
  NoDup (keys (acc ++ l)) -> assign_all l acc = acc ++ l.
Proof.
  induction l as [| [k v] l IH]; intros acc Hnd; simpl.
  - now rewrite app_nil_r.
  - rewrite set_fresh.
    + rewrite IH; rewrite <- app_assoc; [reflexivity | exact Hnd].
    + unfold keys in *. rewrite map_app in Hnd. simpl in Hnd.
      apply NoDup_remove_2 in Hnd. rewrite in_app_iff in Hnd. tauto.
Qed.

Lemma keys_assign_all (defs : list (str * V)) : forall d,
  keys (assign_all defs d) = fold_left add_key (map fst defs) (keys d).
Proof.
  induction defs as [| [k v] defs IH]; intros d; simpl; [reflexivity |].
  now rewrite IH, keys_set.
Qed.

Lemma NoDup_fold_add_key ns : forall ks,
  NoDup ks -> NoDup (fold_left add_key ns ks).
Proof.
  induction ns as [| n ns IH]; intros ks H; simpl; [assumption |].
  now apply IH, NoDup_add_key.
Qed.

Lemma NoDup_keys_assign_all (defs : list (str * V)) :
  NoDup (keys (assign_all defs empty)).
Proof. rewrite keys_assign_all. apply NoDup_fold_add_key. constructor. Qed.

Lemma get_assign_all k (defs : list (str * V)) : forall d,
  get k (assign_all defs d) =
  fold_left (fun acc kv => if str_eqb (fst kv) k then Some (snd kv) else acc)
            defs (get k d).
Proof.
  induction defs as [| [k1 v1] defs IH]; intros d; simpl; [reflexivity |].
  now rewrite IH, get_set.
Qed.

(** The table holds, under each name, the value of its last
    assignment. *)
Lemma get_assign_all_empty k (defs : list (str * V)) :
  get k (assign_all defs empty) = last_def k defs.
Proof. apply get_assign_all. Qed.

Lemma fold_last_notin k (defs : list (str * V)) :
  ~ In k (map fst defs) ->
  forall acc,
    fold_left (fun acc kv => if str_eqb (fst kv) k then Some (snd kv) else acc)
              defs acc = acc.
Proof.
  induction defs as [| [k1 v1] defs IH]; intros Hn acc; simpl;
    [reflexivity |].
  simpl in Hn. rewrite str_eqb_neq by tauto. apply IH. tauto.
Qed.

Lemma fold_last_in k (defs : list (str * V)) :
  In k (map fst defs) ->
  forall acc, exists v,
    fold_left (fun acc kv => if str_eqb (fst kv) k then Some (snd kv) else acc)
              defs acc = Some v.
Proof.
  induction defs as [| [k1 v1] defs IH]; intros Hin acc; simpl; [easy |].
  destruct (in_dec (list_eq_dec ascii_dec) k (map fst defs)) as [Hi | Hn].
  - now apply IH.
  - destruct Hin as [Hk | Hin]; [| tauto]. simpl in Hk. subst k1.
    rewrite str_eqb_refl, fold_last_notin by assumption. eauto.
Qed.

Lemma last_def_in k (defs : list (str * V)) :
  In k (map fst defs) -> last_def k defs <> None.
Proof.
  intros Hin. destruct (fold_last_in k defs Hin None) as (v & Hv).
  unfold last_def. now rewrite Hv.
Qed.

(** Walking names [ns] and assigning to each the value [f] gives it:
    the last assignment to [k] is [f k]. *)
Lemma fold_reassign (f : str -> V) k ns : forall acc,
  fold_left (fun acc kv => if str_eqb (fst kv) k then Some (snd kv) else acc)
            (map (fun n => (n, f n)) ns) acc
  = if existsb (fun n => str_eqb n k) ns then Some (f k) else acc.
Proof.
  induction ns as [| n ns IH]; intros acc; simpl; [reflexivity |].
  rewrite IH. destruct (str_eqb n k) eqn:Hn; simpl; [| reflexivity].
  apply str_eqb_eq in Hn as ->. now destruct (existsb _ ns).
Qed.

(** Writing a table out along an order sequence that lists its
    assignments, and assigning the pairs to an empty table, rebuilds the
    table. *)
Lemma reassign (defs : list (str * V)) (f : str -> V) :
  let d := assign_all defs empty in
  (forall n, In n (map fst defs) -> get n d = Some (f n)) ->
  assign_all (map (fun n => (n, f n)) (map fst defs)) empty = d.
Proof.
  intros d Hf. apply ext.
  - unfold d. rewrite !keys_assign_all, map_map. simpl. now rewrite map_id.
  - intros k. rewrite get_assign_all. simpl. rewrite fold_reassign.
    destruct (existsb _ (map fst defs)) eqn:He.
    + symmetry. apply Hf. now apply existsb_key.
    + symmetry. unfold d. rewrite get_assign_all_empty.
      destruct (last_def k defs) eqn:Hl; [| reflexivity].
      exfalso.
      assert (Hn : ~ In k (map fst defs)).
      { intros Hin. apply (existsb_key k) in Hin. congruence. }
      unfold last_def in Hl. now rewrite fold_last_notin in Hl.
  - rewrite keys_assign_all. apply NoDup_fold_add_key. constructor.
Qed.
End Facts.
End OrderedDictFacts.

(** ** Running the monad *)

Lemma bind_ok {A B} (m : M A) (k : A -> M B) st a st' :
  m st = (OK a, st') -> bind m k st = k a st'.
Proof. intros H. unfold bind. now rewrite H. Qed.

Lemma bind_raise {A B} (m : M A) (k : A -> M B) st e st' :
  m st = (Raise e, st') -> bind m k st = (Raise e, st').
Proof. intros H. unfold bind. now rewrite H. Qed.

Lemma state_eta st :
  mkState (mkDomDef (filename (self st)) (domains (self st))
                    (compounds (self st)) (domain_order (self st))
                    (offset (self st)) (first (self st)) (last (self st)))
          (fs st) (buf st) (stdout st) (writable st) = st.
Proof. now destruct st as [[] ? ? ? ?]. Qed.

(** ** What one line of the file does *)

Lemma transform_run st resid :
  transform resid st = (OK (clamp (offset (self st)) resid), st).
Proof.
  unfold transform, bind, get_self, ret, clamp; simpl.
  destruct (Z.ltb_spec (resid + offset (self st)) 1) as [H | H].
  - now rewrite Z.max_l by lia.
  - now rewrite Z.max_r by lia.
Qed.


Lemma is_simple_cases raw :
  is_skipped raw = true \/ is_compound raw = true \/ is_simple raw = true.
Proof.
  unfold is_compound, is_simple.
  destruct (is_skipped raw); [now left | right].
  destruct (PyStr.startswith "@" (PyStr.strip raw)); auto.
Qed.

Lemma load_line_run raw st :
  load_line raw st =
  if malformed raw then (Raise ValueError, st)
  else
    let dd := opt_list (domain_def (offset (self st)) raw) in
    (OK tt,
     with_tables (assign_all dd (domains (self st)))
                 (assign_all (opt_list (compound_def raw)) (compounds (self st)))
                 (domain_order (self st) ++ map fst dd) st).
Proof.
  unfold load_line, malformed, domain_def, compound_def,
    is_simple, is_compound, is_skipped, fields_of.
  pose proof (PyStrFacts.strip_head raw) as Hhead.
  pose proof (PyStrFacts.split_fields (PyStr.strip raw)) as Hfields.
  set (line := PyStr.strip raw) in *.
  destruct (PyStr.startswith "#" line || Nat.eqb (length line) 0)%bool eqn:Hskip.
  - simpl. unfold ret, with_tables. rewrite app_nil_r. now rewrite state_eta.
  - destruct line as [| c t]; [now rewrite orb_true_r in Hskip |].
    destruct (PyStr.startswith "@" (c :: t)) eqn:Hat.
    + destruct (PyStrFacts.split_first c t Hhead) as (w & r & Hs).
      rewrite Hs. simpl. unfold modify_self, with_tables. simpl.
      now rewrite app_nil_r.
    + simpl.
      destruct (PyStr.split (c :: t)) as [| n [| a [| b [| x rest]]]];
        try reflexivity.
      inversion Hfields as [| ? ? _ Hf1]; subst.
      inversion Hf1 as [| ? ? Ha Hf2]; subst.
      inversion Hf2 as [| ? ? Hb _]; subst.
      apply andb_prop in Ha as [_ Ha]. apply andb_prop in Hb as [_ Hb].
      unfold py_int. rewrite !PyStrFacts.strip_nospace by assumption.
      destruct (PyStr.int_literal a) as [x |]; [| reflexivity].
      rewrite (bind_ok _ _ st x st) by reflexivity.
      rewrite (bind_ok _ _ st _ st (transform_run st x)).
      destruct (PyStr.int_literal b) as [y |]; [| reflexivity].
      rewrite (bind_ok _ _ st y st) by reflexivity.
      rewrite (bind_ok _ _ st _ st (transform_run st y)).
      reflexivity.
Qed.

(** ** What the loop of [load] does *)

Lemma load_loop_ok ls : forall st,
  existsb malformed ls = false ->
  for_each ls load_line st =
  (OK tt,
   let dd := flat_map (fun raw => opt_list (domain_def (offset (self st)) raw)) ls in
   with_tables
     (assign_all dd (domains (self st)))
     (assign_all (flat_map (fun raw => opt_list (compound_def raw)) ls)
                 (compounds (self st)))
     (domain_order (self st) ++ map fst dd) st).
Proof.
  induction ls as [| raw ls IH]; intros st Hok; simpl.
  - unfold ret, with_tables. now rewrite app_nil_r, state_eta.
  - simpl in Hok. apply orb_false_elim in Hok as [Hraw Hls].
    erewrite bind_ok; [| rewrite load_line_run, Hraw; reflexivity].
    rewrite IH by assumption. simpl. unfold with_tables. simpl.
    unfold assign_all. rewrite !fold_left_app, !map_app, !app_assoc.
    reflexivity.
Qed.

Lemma load_loop_bad ls : forall st,
  existsb malformed ls = true ->
  exists st',
    for_each ls load_line st = (Raise ValueError, st')
    /\ first (self st') = first (self st)
    /\ last (self st') = last (self st).
Proof.
  induction ls as [| raw ls IH]; intros st Hbad; simpl in *; [discriminate |].
  destruct (malformed raw) eqn:Hraw.
  - exists st. erewrite bind_raise; [| rewrite load_line_run, Hraw; reflexivity].
    auto.
  - simpl in Hbad.
    erewrite bind_ok; [| rewrite load_line_run, Hraw; reflexivity].
    match goal with
    | |- context [for_each ls load_line ?s] =>
        destruct (IH s Hbad) as (st' & -> & Hf & Hl)
    end.
    exists st'. auto.
Qed.

Lemma sort_nil l : sort l = [] -> l = [].
Proof.
  destruct l as [| x l]; [reflexivity |]. simpl.
  destruct (sort l) as [| y s]; simpl; [discriminate |].
  destruct (x <=? y); discriminate.
Qed.

(** ** What the constructor does *)

Lemma init_run path off st content :
  fs st path = Some content ->
  exists st',
    __init__ path off st =
    (match model_of path off content with
     | OK _ => OK tt
     | Raise e => Raise e
     end, st')
    /\ match model_of path off content with
       | OK o => st' = mkState o (fs st) (buf st) (stdout st) (writable st)
       | Raise _ => first (self st') = None /\ last (self st') = None
       end.
Proof.
  intros Hfile. unfold __init__, load, model_of, domain_defs, compound_defs.
  set (st1 := mkState (mkDomDef path OrderedDict.empty OrderedDict.empty []
                                off None None) (fs st) (buf st) (stdout st)
                      (writable st)).
  rewrite (bind_ok _ _ st tt st1) by reflexivity.
  rewrite (bind_ok _ _ st1 content st1)
    by (unfold read_file; simpl; now rewrite Hfile).
  destruct (existsb malformed (PyStr.lines content)) eqn:Hmal.
  - destruct (load_loop_bad _ st1 Hmal) as (st' & Hrun & Hf & Hl).
    exists st'. erewrite bind_raise by exact Hrun. auto.
  - erewrite bind_ok by (now apply load_loop_ok).
    simpl. unfold bind, get_self, with_tables. simpl.
    set (resids := sort (ravel _)).
    destruct resids as [| x r] eqn:Hres.
    + eexists. split; [reflexivity | simpl; auto].
    + simpl. destruct (rev r ++ [x]) as [| y r'] eqn:Hrev.
      * now destruct (rev r).
      * unfold index_last. simpl. rewrite Hrev. simpl.
        eexists. split; reflexivity.
Qed.

(** A loaded instance is the model of the file it was loaded from. *)
Lemma LoadedFrom_model content off o :
  LoadedFrom content off o ->
  exists path, model_of path off content = OK o.
Proof.
  intros (st0 & path & st1 & Hfile & Hrun & Hself).
  destruct (init_run path off st0 content Hfile) as (st' & Hrun' & Hst).
  rewrite Hrun in Hrun'. exists path.
  destruct (model_of path off content) as [o' | e]; [| discriminate].
  injection Hrun' as <-. subst st1. now subst o.
Qed.

(** ** The numeric transform *)

(** C2.  For every resid and every offset of the instance, [transform]
    returns [max 1 (resid + offset)] and touches nothing; the value is at
    least 1; with offset -100 resid 1 gives 1, with offset 3 resid 5
    gives 8. *)
Theorem transform_is_clamped_sum :
  (forall st resid,
      transform resid st = (OK (Z.max 1 (resid + offset (self st))), st)
      /\ 1 <= Z.max 1 (resid + offset (self st)))
  /\ (forall fn d c ord f l fsys b out w,
        fst (transform 1 (mkState (mkDomDef fn d c ord (-100) f l) fsys b out w))
        = OK 1)
  /\ (forall fn d c ord f l fsys b out w,
        fst (transform 5 (mkState (mkDomDef fn d c ord 3 f l) fsys b out w))
        = OK 8).
Proof.
  split; [| split].
  - intros st resid. rewrite transform_run. split; [reflexivity | lia].
  - intros. now rewrite transform_run.
  - intros. now rewrite transform_run.
Qed.

(** ** Token substitution *)

Section Replace.
Variable c : ascii.
Variable new : str.

Lemma replace_app s t :
  PyStr.replace c new (s ++ t) = PyStr.replace c new s ++ PyStr.replace c new t.
Proof.
  induction s as [| d s IH]; simpl; [reflexivity |].
  now rewrite IH, app_assoc.
Qed.

Lemma replace_flat_map (f : ascii -> str) s :
  PyStr.replace c new (flat_map f s)
  = flat_map (fun d => PyStr.replace c new (f d)) s.
Proof.
  induction s as [| d s IH]; simpl; [reflexivity |].
  now rewrite replace_app, IH.
Qed.

Lemma replace_as_flat_map s :
  PyStr.replace c new s = flat_map (fun d => if Ascii.eqb d c then new else [d]) s.
Proof.
  induction s as [| d s IH]; simpl; [reflexivity |]. now rewrite IH.
Qed.
End Replace.

(** Three replacements in a row rewrite each character on its own, as long
    as no token brings in a character that a later replacement looks for. *)
Lemma replace3_pointwise t_or t_and t_not s :
  PyStr.replace "&" t_and t_or = t_or ->
  PyStr.replace "!" t_not t_or = t_or ->
  PyStr.replace "!" t_not t_and = t_and ->
  PyStr.replace "!" t_not (PyStr.replace "&" t_and (PyStr.replace "|" t_or s))
  = flat_map (fun c => if Ascii.eqb c "|" then t_or
                       else if Ascii.eqb c "&" then t_and
                       else if Ascii.eqb c "!" then t_not
                       else [c]) s.
Proof.
  intros Hor1 Hor2 Hand.
  rewrite (replace_as_flat_map "|" t_or s).
  rewrite !replace_flat_map.
  apply flat_map_ext. intros c.
  destruct (Ascii.eqb_spec c "|") as [-> | Hn1].
  - now rewrite Hor1, Hor2.
  - simpl. destruct (Ascii.eqb_spec c "&") as [-> | Hn2]; simpl.
    + now rewrite app_nil_r.
    + rewrite app_nil_r. now destruct (Ascii.eqb_spec c "!").
Qed.

Lemma _transform_spec mode s :
  _transform mode s =
  match target_of_mode mode with
  | Some t => OK (substitute_tokens t s)
  | None => Raise ValueError
  end.
Proof.
  unfold _transform, target_of_mode.
  destruct (str_eqb mode (lit "charmm")) eqn:Hc.
  - assert (mode = lit "charmm") as ->.
    { unfold str_eqb in Hc. now destruct (list_eq_dec ascii_dec _ _). }
    simpl. f_equal. rewrite replace3_pointwise by reflexivity.
    apply flat_map_ext. intros c. simpl.
    now destruct (Ascii.eqb c "|"), (Ascii.eqb c "&"), (Ascii.eqb c "!").
  - destruct (str_eqb mode (lit "vmd")) eqn:Hv.
    + f_equal. rewrite replace3_pointwise by reflexivity.
      apply flat_map_ext. intros c. simpl.
      now destruct (Ascii.eqb c "|"), (Ascii.eqb c "&"), (Ascii.eqb c "!").
    + destruct (str_eqb mode (lit "pymol")) eqn:Hp; [| reflexivity].
      f_equal. rewrite replace3_pointwise by reflexivity.
      apply flat_map_ext. intros c. simpl.
      now destruct (Ascii.eqb c "|"), (Ascii.eqb c "&"), (Ascii.eqb c "!").
Qed.

(** C3.  [_transform] rewrites character by character with the token
    table of its target: for "vmd" (tool A) | & ! become " or ", " and ",
    " not " and every other character stays, so "A & B" becomes
    "A  and  B"; for "charmm" (tool C) the tokens are " .or. ", " .and. ",
    " .not. ", so "A & B" becomes "A  .and.  B"; a mode that is not in the
    table raises ValueError. *)
Theorem token_substitution_is_literal_and_target_scoped :
  (forall s,
      _transform (lit "vmd") s =
      OK (flat_map (fun c => if Ascii.eqb c "|" then lit " or "
                             else if Ascii.eqb c "&" then lit " and "
                             else if Ascii.eqb c "!" then lit " not "
                             else [c]) s))
  /\ _transform (lit "vmd") (lit "A & B") = OK (lit "A  and  B")
  /\ (forall s,
         _transform (lit "charmm") s =
         OK (flat_map (fun c => if Ascii.eqb c "|" then lit " .or. "
                                else if Ascii.eqb c "&" then lit " .and. "
                                else if Ascii.eqb c "!" then lit " .not. "
                                else [c]) s))
  /\ _transform (lit "charmm") (lit "A & B") = OK (lit "A  .and.  B")
  /\ (forall mode s,
         _transform mode s =
         match target_of_mode mode with
         | Some t => OK (substitute_tokens t s)
         | None => Raise ValueError
         end).
Proof.
  repeat split.
  - intros s. unfold _transform. simpl. f_equal.
    now apply replace3_pointwise.
  - intros s. unfold _transform. simpl. f_equal.
    now apply replace3_pointwise.
  - apply _transform_spec.
Qed.

Lemma token_free t c tok :
  token t c = Some tok -> forallb (fun d => negb (is_operator d)) tok = true.
Proof.
  destruct t; simpl;
    destruct (Ascii.eqb c "|"); [intros [= <-]; reflexivity | |
                                 intros [= <-]; reflexivity | |
                                 intros [= <-]; reflexivity |];
    (destruct (Ascii.eqb c "&"); [intros [= <-]; reflexivity |]);
    (destruct (Ascii.eqb c "!"); [intros [= <-]; reflexivity |]);
    discriminate.
Qed.

Lemma token_none t c : token t c = None -> is_operator c = false.
Proof.
  unfold is_operator.
  destruct t; simpl;
    destruct (Ascii.eqb c "|"); try discriminate;
    destruct (Ascii.eqb c "&"); try discriminate;
    destruct (Ascii.eqb c "!"); try discriminate; reflexivity.
Qed.

Lemma token_of_plain t c : is_operator c = false -> token t c = None.
Proof.
  unfold is_operator. intros H.
  destruct (Ascii.eqb c "|") eqn:H1; [discriminate |].
  destruct (Ascii.eqb c "&") eqn:H2; [discriminate |].
  destruct (Ascii.eqb c "!") eqn:H3; [discriminate |].
  destruct t; simpl; now rewrite H1, H2, H3.
Qed.

Lemma substitute_tokens_free t s :
  forallb (fun d => negb (is_operator d)) (substitute_tokens t s) = true.
Proof.
  induction s as [| c s IH]; simpl; [reflexivity |].
  rewrite forallb_app, IH, andb_true_r.
  destruct (token t c) as [tok |] eqn:Ht.
  - eapply token_free; eauto.
  - simpl. now rewrite (token_none _ _ Ht).
Qed.

Lemma substitute_tokens_plain t s :
  forallb (fun d => negb (is_operator d)) s = true ->
  substitute_tokens t s = s.
Proof.
  induction s as [| c s IH]; simpl; [reflexivity |].
  intros H. apply andb_prop in H as [Hc Hs].
  rewrite (token_of_plain t c) by now destruct (is_operator c).
  simpl. now rewrite IH.
Qed.

(** C10.  Whatever a known target makes of a string holds none of the
    characters | & !, and substituting again for the same target changes
    nothing. *)
Theorem token_substitution_is_idempotent mode s r :
  _transform mode s = OK r ->
  (forall c, In c r -> c <> "|"%char /\ c <> "&"%char /\ c <> "!"%char)
  /\ _transform mode r = OK r.
Proof.
  rewrite !_transform_spec.
  destruct (target_of_mode mode) as [t |]; [| discriminate].
  intros [= <-].
  pose proof (substitute_tokens_free t s) as Hfree.
  split.
  - intros c Hin. rewrite forallb_forall in Hfree.
    specialize (Hfree c Hin). unfold is_operator in Hfree.
    repeat split; intros ->; discriminate.
  - now rewrite substitute_tokens_plain.
Qed.

Lemma token_substitution_is_idempotent_witness :
  (forall c, In c (lit "A  and  B") ->
             c <> "|"%char /\ c <> "&"%char /\ c <> "!"%char)
  /\ _transform (lit "vmd") (lit "A  and  B") = OK (lit "A  and  B").
Proof.
  apply (@token_substitution_is_idempotent (lit "vmd") (lit "A & B")).
  reflexivity.
Defined.

(** ** The writers only read the instance *)

Section Frames.
Context {A B : Type}.

Lemma frames_ret (a : A) : frames (ret a).
Proof. now intros st. Qed.

Lemma frames_raise e : frames (@raise A e).
Proof. now intros st. Qed.

Lemma frames_lift (r : result A) : frames (lift r).
Proof. now intros st. Qed.

Lemma frames_bind (m : M A) (k : A -> M B) :
  frames m -> (forall a, frames (k a)) -> frames (bind m k).
Proof.
  intros Hm Hk st. unfold bind. specialize (Hm st).
  destruct (m st) as [[a | e] st']; simpl in *; [| assumption].
  now rewrite (Hk a st').
Qed.

End Frames.

Lemma frames_for_each {A} (l : list A) (body : A -> M unit) :
  (forall x, frames (body x)) -> frames (for_each l body).
Proof.
  intros Hb. induction l as [| x l IH]; simpl.
  - apply frames_ret.
  - apply frames_bind; auto.
Qed.

Lemma frames_for_gen {A} (g : list (result A)) (body : A -> M unit) :
  (forall x, frames (body x)) -> frames (for_gen g body).
Proof.
  intros Hb. induction g as [| r g IH]; simpl.
  - apply frames_ret.
  - apply frames_bind; [apply frames_lift |].
    intros x. apply frames_bind; auto.
Qed.

Lemma frames_get_self : frames get_self.
Proof. now intros st. Qed.

Lemma frames_fwrite s : frames (fwrite s).
Proof. now intros st. Qed.

Lemma frames_print s : frames (print s).
Proof. now intros st. Qed.

Lemma frames_with_open_w path body : frames body -> frames (with_open_w path body).
Proof.
  intros Hb st. unfold with_open_w.
  destruct (writable st path); [| reflexivity].
  specialize (Hb (mkState (self st) (fs st) [] (stdout st) (writable st))).
  now destruct (body _) as [r st'].
Qed.

Lemma frames_attr f : frames (attr f).
Proof.
  unfold attr. apply frames_bind; [apply frames_get_self |].
  intros o. destruct (f o); [apply frames_ret | apply frames_raise].
Qed.

Lemma frames__ordered_domains : frames _ordered_domains.
Proof.
  unfold _ordered_domains. apply frames_bind; [apply frames_get_self |].
  intros o. apply frames_ret.
Qed.

Create HintDb frames.
#[local] Hint Resolve frames_ret frames_raise frames_lift frames_get_self
  frames_fwrite frames_print frames_attr frames__ordered_domains : frames.

Ltac frame_step :=
  match goal with
  | |- frames (bind _ _) => apply frames_bind; [| intros ?]
  | |- frames (with_open_w _ _) => apply frames_with_open_w
  | |- frames (for_each _ _) => apply frames_for_each; intros [? ?]
  | |- frames (for_gen _ _) => apply frames_for_gen; intros [? [? ?]]
  | |- frames (match ?x with _ => _ end) => destruct x
  | |- frames _ => solve [auto with frames]
  end.

Lemma frames_xvg_loop yval g : forall prev, frames (xvg_loop yval prev g).
Proof.
  induction g as [| r g IH]; intros prev; simpl; repeat frame_step.
Qed.

Lemma frames_bendix_loop g : forall acc, frames (bendix_loop g acc).
Proof.
  induction g as [| r g IH]; intros acc; simpl; repeat frame_step.
Qed.

Lemma frames__write yval : frames (_write yval).
Proof. unfold _write. repeat frame_step; apply frames_xvg_loop. Qed.

Lemma frames__write_vmd_addrep_domains c m r :
  frames (_write_vmd_addrep_domains c m r).
Proof. unfold _write_vmd_addrep_domains. repeat frame_step. Qed.

(** C9.  No serializer changes the instance: after [write], [write_vmd],
    [write_bendix], [write_pymol], [write_charmm] or [write_xvg], whatever
    its outcome, the domain table, the compound table, the order sequence,
    the offset and the extrema are the ones it started with. *)
Theorem serializers_leave_model_unchanged path st :
  self (snd (write path st)) = self st
  /\ self (snd (write_vmd path st)) = self st
  /\ self (snd (write_bendix path st)) = self st
  /\ self (snd (write_pymol path st)) = self st
  /\ self (snd (write_charmm path st)) = self st
  /\ self (snd (write_xvg path st)) = self st.
Proof.
  repeat split.
  - revert st. change (frames (write path)). unfold write. repeat frame_step.
  - revert st. change (frames (write_vmd path)). unfold write_vmd.
    repeat frame_step; apply frames__write_vmd_addrep_domains.
  - revert st. change (frames (write_bendix path)). unfold write_bendix.
    repeat frame_step; apply frames_bendix_loop.
  - revert st. change (frames (write_pymol path)). unfold write_pymol.
    repeat frame_step.
  - revert st. change (frames (write_charmm path)). unfold write_charmm.
    repeat frame_step.
  - revert st. change (frames (write_xvg path)). unfold write_xvg.
    repeat frame_step; apply frames__write.
Qed.

(** ** What the writers leave in their files *)

(** Appends bracketed to the right, with the leading characters pulled
    out. *)
Ltac list_norm := repeat (rewrite <- app_assoc; simpl).

Lemma for_gen_fwrite {A} (f : A -> str) (body : A -> M unit) items :
  (forall x st, body x st = fwrite (f x) st) ->
  forall o fsys b out w,
    for_gen (map OK items) body (mkState o fsys b out w)
    = (OK tt, mkState o fsys (b ++ flat_map f items) out w).
Proof.
  intros Hbody. induction items as [| x items IH]; intros o fsys b out w; simpl.
  - unfold ret. now rewrite app_nil_r.
  - unfold bind at 1. unfold lift. unfold bind at 1. rewrite Hbody.
    unfold fwrite. simpl. rewrite IH. now rewrite <- app_assoc.
Qed.

Lemma for_each_fwrite {A} (f : A -> str) (body : A -> M unit) items :
  (forall x st, body x st = fwrite (f x) st) ->
  forall o fsys b out w,
    for_each items body (mkState o fsys b out w)
    = (OK tt, mkState o fsys (b ++ flat_map f items) out w).
Proof.
  intros Hbody. induction items as [| x items IH]; intros o fsys b out w; simpl.
  - unfold ret. now rewrite app_nil_r.
  - unfold bind at 1. rewrite Hbody.
    unfold fwrite. simpl. rewrite IH. now rewrite <- app_assoc.
Qed.

Lemma generator_items (d : OrderedDict.t (Z * Z)) ns :
  Forall (fun n => OrderedDict.get n d <> None) ns ->
  map (fun n => match OrderedDict.get n d with
                | Some v => OK (n, v)
                | None => Raise KeyError
                end) ns
  = map OK (flat_map (fun n => opt_list (option_map (pair n)
                                           (OrderedDict.get n d))) ns).
Proof.
  induction 1 as [| n ns Hn _ IH]; simpl; [reflexivity |].
  rewrite IH. now destruct (OrderedDict.get n d).
Qed.

Lemma _ordered_domains_run st :
  order_in_table (self st) ->
  _ordered_domains st = (OK (map OK (ordered_items (self st))), st).
Proof.
  intros H. unfold _ordered_domains, bind, get_self, ret, ordered_items.
  now rewrite generator_items.
Qed.

Lemma ordered_items_map o :
  order_in_table o ->
  ordered_items o = map (fun n => (n, range_of o n)) (domain_order o).
Proof.
  unfold order_in_table, ordered_items, range_of.
  induction 1 as [| n ns Hn _ IH]; simpl; [reflexivity |].
  rewrite IH. now destruct (OrderedDict.get n (domains o)).
Qed.

(** The common shape of [write], [write_vmd], [write_pymol] and
    [write_charmm] inside the [with] block. *)
Lemma body_run header domline marker compline
    (dbody : str * (Z * Z) -> M unit) (cbody : str * str -> M unit)
    o fsys b out w :
  order_in_table o ->
  (forall x st,
      dbody x st = fwrite (domline (fst x) (fst (snd x)) (snd (snd x)) ++ nl) st) ->
  (forall x st, cbody x st = fwrite (compline (fst x) (snd x) ++ nl) st) ->
  (s <- get_self ;;
   fwrite (header s) ;;
   g <- _ordered_domains ;;
   for_gen g dbody ;;
   fwrite (marker ++ nl) ;;
   c <- get_self ;;
   for_each (OrderedDict.items (compounds c)) cbody) (mkState o fsys b out w)
  = (OK tt,
     mkState o fsys
             (b ++ body_text (header o) domline marker compline o) out w).
Proof.
  intros Hord Hd Hc.
  unfold bind at 1. unfold get_self at 1. simpl.
  unfold bind at 1. unfold fwrite at 1. simpl.
  unfold bind at 1. rewrite _ordered_domains_run by assumption. simpl.
  unfold bind at 1. rewrite (for_gen_fwrite _ _ _ Hd).
  unfold bind at 1. unfold fwrite at 1. simpl.
  unfold bind at 1. unfold get_self at 1. simpl.
  unfold OrderedDict.items. rewrite (for_each_fwrite _ _ _ Hc).
  unfold body_text. now rewrite <- !app_assoc.
Qed.

Lemma write_run path st :
  order_in_table (self st) ->
  writable st path = true ->
  write path st =
  (OK tt, mkState (self st) (fs_set path (write_text (self st)) (fs st))
                  (buf st) (stdout st) (writable st)).
Proof.
  intros Hord Hw. unfold write, with_open_w. rewrite Hw.
  erewrite (body_run write_header write_domline (lit "# compound statements")
                     write_compline); try assumption.
  - reflexivity.
  - intros [n [s e]] st'. unfold write_domline. simpl. now list_norm.
  - intros [n d] st'. unfold write_compline. simpl. now list_norm.
Qed.

(** The same block followed by more statements. *)
Lemma body_run_then header domline marker compline
    (dbody : str * (Z * Z) -> M unit) (cbody : str * str -> M unit)
    (k : M unit) o fsys b out w :
  order_in_table o ->
  (forall x st,
      dbody x st = fwrite (domline (fst x) (fst (snd x)) (snd (snd x)) ++ nl) st) ->
  (forall x st, cbody x st = fwrite (compline (fst x) (snd x) ++ nl) st) ->
  (s <- get_self ;;
   fwrite (header s) ;;
   g <- _ordered_domains ;;
   for_gen g dbody ;;
   fwrite (marker ++ nl) ;;
   c <- get_self ;;
   for_each (OrderedDict.items (compounds c)) cbody ;;
   k) (mkState o fsys b out w)
  = k (mkState o fsys
               (b ++ body_text (header o) domline marker compline o) out w).
Proof.
  intros Hord Hd Hc.
  unfold bind at 1. unfold get_self at 1. simpl.
  unfold bind at 1. unfold fwrite at 1. simpl.
  unfold bind at 1. rewrite _ordered_domains_run by assumption. simpl.
  unfold bind at 1. rewrite (for_gen_fwrite _ _ _ Hd).
  unfold bind at 1. unfold fwrite at 1. simpl.
  unfold bind at 1. unfold get_self at 1. simpl.
  unfold bind at 1.
  unfold OrderedDict.items. rewrite (for_each_fwrite _ _ _ Hc).
  unfold body_text. now rewrite <- !app_assoc.
Qed.

Lemma _write_vmd_addrep_domains_run o fsys b out w :
  _write_vmd_addrep_domains None None None (mkState o fsys b out w)
  = (OK tt, mkState o fsys (b ++ vmd_addrep_text o) out w).
Proof.
  unfold _write_vmd_addrep_domains, vmd_addrep_text, bind, fwrite, get_self.
  simpl. now list_norm.
Qed.

Lemma transformed_compound_line mode t (compline : str -> str -> str)
    (x : str * str) st :
  target_of_mode mode = Some t ->
  (let '(domname, definition) := x in
   definition <- lift (_transform mode definition) ;;
   fwrite (compline domname definition ++ nl)) st
  = fwrite (compline (fst x) (substitute_tokens t (snd x)) ++ nl) st.
Proof.
  intros Ht. destruct x as [n d]. unfold bind, lift.
  now rewrite _transform_spec, Ht.
Qed.

Lemma write_vmd_run path st :
  order_in_table (self st) ->
  writable st path = true ->
  write_vmd path st =
  (OK tt, mkState (self st) (fs_set path (vmd_text (self st)) (fs st))
                  (buf st)
                  (stdout st ++ (lit "# Load macros with 'source " ++ path
                                 ++ lit "' in VMD") ++ [chr_nl])
                  (writable st)).
Proof.
  intros Hord Hw. unfold write_vmd. unfold bind at 1. unfold with_open_w.
  rewrite Hw.
  erewrite (body_run_then (macro_header (lit "#")) vmdmacro
              (lit "# compound statements")
              (fun n d => vmdcompound n (substitute_tokens ToolA d)));
    try assumption.
  - rewrite _write_vmd_addrep_domains_run. reflexivity.
  - now intros [n [s e]] st'.
  - intros x st'. now apply transformed_compound_line.
Qed.

Lemma write_pymol_run path st :
  order_in_table (self st) ->
  writable st path = true ->
  write_pymol path st =
  (OK tt, mkState (self st) (fs_set path (pymol_text (self st)) (fs st))
                  (buf st)
                  (stdout st ++ (lit "# Load selection with '@" ++ path
                                 ++ lit "' in PyMOL") ++ [chr_nl])
                  (writable st)).
Proof.
  intros Hord Hw. unfold write_pymol. unfold bind at 1. unfold with_open_w.
  rewrite Hw.
  erewrite (body_run (macro_header (lit "#")) pymolselection
              (lit "# compound statements")
              (fun n d => pymolcompound n (substitute_tokens ToolB d)));
    try assumption.
  - reflexivity.
  - now intros [n [s e]] st'.
  - intros x st'. now apply transformed_compound_line.
Qed.

Lemma write_charmm_run path st :
  order_in_table (self st) ->
  writable st path = true ->
  write_charmm path st =
  (OK tt, mkState (self st) (fs_set path (charmm_text (self st)) (fs st))
                  (buf st)
                  (stdout st
                   ++ (lit "# Add SELECTION definitons to Charmm script with 'stream "
                       ++ dq path ++ lit "'") ++ [chr_nl])
                  (writable st)).
Proof.
  intros Hord Hw. unfold write_charmm. unfold bind at 1. unfold with_open_w.
  rewrite Hw.
  erewrite (body_run (macro_header (lit "!")) charmmselection
              (lit "! compound statements")
              (fun n d => charmmcompound n (substitute_tokens ToolC d)));
    try assumption.
  - reflexivity.
  - now intros [n [s e]] st'.
  - intros x st'. now apply transformed_compound_line.
Qed.

Lemma bendix_loop_run items : forall acc st,
  bendix_loop (map OK items) acc st
  = (OK (acc ++ flat_map (fun d => [PyStr.str_of_int (fst (snd d));
                                    PyStr.str_of_int (snd (snd d))]) items),
     st).
Proof.
  induction items as [| [n [s e]] items IH]; intros acc st; simpl.
  - unfold ret. now rewrite app_nil_r.
  - unfold bind, lift. rewrite IH. now rewrite <- app_assoc.
Qed.

Lemma write_bendix_run path st :
  order_in_table (self st) ->
  writable st path = true ->
  write_bendix path st =
  (OK tt, mkState (self st) (fs_set path (bendix_text (self st)) (fs st))
                  (buf st)
                  (stdout st ++ (lit "# Wrote domains to Bendix helix file "
                                 ++ PyStr.repr path) ++ [chr_nl])
                  (writable st)).
Proof.
  intros Hord Hw. unfold write_bendix.
  unfold bind at 1. rewrite _ordered_domains_run by assumption.
  unfold bind at 1. rewrite bendix_loop_run.
  unfold bind at 1, with_open_w. rewrite Hw.
  reflexivity.
Qed.

(** The loop of the graph writer visits [xvg_visited]. *)
Lemma xvg_loop_run yval items : forall prev o fsys b out w,
  xvg_loop yval prev (map OK items) (mkState o fsys b out w)
  = (OK tt,
     mkState o fsys (b ++ flat_map (xvg_rect yval) (xvg_visited prev items))
             out w).
Proof.
  induction items as [| [n [s e]] items IH]; intros prev o fsys b out w; simpl.
  - unfold ret. now rewrite app_nil_r.
  - unfold bind at 1. unfold lift. simpl.
    destruct (s <? prev).
    + unfold ret. simpl. now rewrite app_nil_r.
    + unfold bind at 1. unfold fwrite at 1. simpl.
      unfold bind at 1. unfold fwrite at 1. simpl.
      unfold bind at 1. unfold fwrite at 1. simpl.
      unfold bind at 1. unfold fwrite at 1. simpl.
      rewrite IH. unfold xvg_rect. simpl. now list_norm.
Qed.

Lemma _write_run yval lo hi o fsys b out w :
  order_in_table o -> first o = Some lo -> last o = Some hi ->
  _write yval (mkState o fsys b out w)
  = (OK tt,
     mkState o fsys
             (b ++ xvg_pass yval lo hi (xvg_visited lo (ordered_items o))) out w).
Proof.
  intros Hord Hlo Hhi. unfold _write.
  unfold bind at 1. unfold attr at 1. unfold bind at 1, get_self at 1. simpl.
  rewrite Hlo. unfold ret at 1.
  unfold bind at 1. unfold fwrite at 1. simpl.
  unfold bind at 1. rewrite _ordered_domains_run by assumption. simpl.
  unfold bind at 1. rewrite xvg_loop_run.
  unfold bind at 1. unfold attr at 1. unfold bind at 1, get_self at 1. simpl.
  rewrite Hhi. unfold ret at 1. unfold fwrite. simpl.
  unfold xvg_pass. now list_norm.
Qed.

Lemma write_xvg_run path lo hi st :
  order_in_table (self st) ->
  first (self st) = Some lo -> last (self st) = Some hi ->
  writable st path = true ->
  write_xvg path st =
  (OK tt,
   mkState (self st)
     (fs_set path
        (let visited := xvg_visited lo (ordered_items (self st)) in
         xvg_header (self st) ++ xvg_pass G_half lo hi visited
         ++ lit "&" ++ nl ++ xvg_pass G_minus_half lo hi visited)
        (fs st))
     (buf st)
     (stdout st ++ lit "# Wrote xvg file with secondary structure graph"
      ++ [chr_nl])
     (writable st)).
Proof.
  intros Hord Hlo Hhi Hw. unfold write_xvg.
  unfold bind at 1. unfold with_open_w. rewrite Hw.
  unfold bind at 1. unfold get_self at 1. simpl.
  unfold bind at 1. unfold fwrite at 1. simpl.
  unfold bind at 1. rewrite (_write_run G_half lo hi) by assumption.
  unfold bind at 1. unfold fwrite at 1. simpl.
  rewrite (_write_run G_minus_half lo hi) by assumption.
  unfold print. simpl. now list_norm.
Qed.




(** ** Loaded instances *)

Lemma model_of_inv path off content o :
  model_of path off content = OK o ->
  existsb malformed (PyStr.lines content) = false
  /\ o = mkDomDef path
               (assign_all (domain_defs off content) OrderedDict.empty)
               (assign_all (compound_defs content) OrderedDict.empty)
               (map fst (domain_defs off content)) off (first o) (last o)
  /\ exists lo hi r r',
      sort (ravel (OrderedDict.values (domains o))) = lo :: r
      /\ rev (lo :: r) = hi :: r'
      /\ first o = Some lo /\ last o = Some hi.
Proof.
  unfold model_of.
  destruct (existsb malformed (PyStr.lines content)); [discriminate |].
  destruct (sort _) as [| lo r] eqn:Hs; [discriminate |].
  destruct (rev (lo :: r)) as [| hi r'] eqn:Hr; [discriminate |].
  intros [= <-]. simpl. split; [reflexivity | split; [reflexivity |]].
  exists lo, hi, r, r'. auto.
Qed.

Lemma model_order_in_table path off content o :
  model_of path off content = OK o -> order_in_table o.
Proof.
  intros H. apply model_of_inv in H as (_ & -> & _).
  unfold order_in_table. simpl. apply Forall_forall. intros n Hn.
  rewrite OrderedDictFacts.get_assign_all_empty.
  now apply OrderedDictFacts.last_def_in.
Qed.

Lemma init_ok_file path off st st' :
  __init__ path off st = (OK tt, st') ->
  exists content, fs st path = Some content.
Proof.
  destruct (fs st path) as [content |] eqn:Hfile; [eauto |].
  unfold __init__, load.
  erewrite bind_ok by reflexivity.
  erewrite bind_raise; [discriminate |].
  unfold read_file. simpl. now rewrite Hfile.
Qed.

Lemma init_ok_model path off st st' :
  __init__ path off st = (OK tt, st') ->
  exists content o,
    fs st path = Some content
    /\ model_of path off content = OK o
    /\ st' = mkState o (fs st) (buf st) (stdout st) (writable st).
Proof.
  intros Hrun. destruct (init_ok_file _ _ _ _ Hrun) as (content & Hfile).
  destruct (init_run path off st content Hfile) as (st1 & Hrun1 & Hst).
  rewrite Hrun in Hrun1.
  destruct (model_of path off content) as [o | e] eqn:Hm; [| discriminate].
  injection Hrun1 as <-. exists content, o. auto.
Qed.

Lemma Loaded_order_in_table o : Loaded o -> order_in_table o.
Proof.
  intros (content & off & H).
  destruct (LoadedFrom_model _ _ _ H) as (path & Hm).
  eapply model_order_in_table; eauto.
Qed.

(** *** The extrema *)

Lemma insert_sorted_head x l y r :
  insert_sorted x l = y :: r ->
  (y = x /\ (forall z r', l = z :: r' -> x <= z))
  \/ (exists r', l = y :: r' /\ y <= x).
Proof.
  destruct l as [| z l']; simpl.
  - intros [= <- <-]. left. split; [reflexivity | discriminate].
  - destruct (Z.leb_spec x z) as [Hle | Hgt].
    + intros [= <- <-]. left. split; [reflexivity |].
      now intros ? ? [= <- <-].
    + intros [= <- <-]. right. exists l'. split; [reflexivity | lia].
Qed.

(** The head of the sorted array is below every element. *)
Lemma sort_head_le l : forall lo r,
  sort l = lo :: r -> forall y, In y l -> lo <= y.
Proof.
  induction l as [| x l IH]; intros lo r Hs y Hy; [destruct Hy |].
  simpl in Hs. apply insert_sorted_head in Hs as [[-> Hmin] | (r' & Hl & Hle)].
  - destruct Hy as [<- | Hy]; [lia |].
    destruct (sort l) as [| z s] eqn:Hsl.
    + apply sort_nil in Hsl. subst l. destruct Hy.
    + specialize (Hmin z s eq_refl). specialize (IH z s eq_refl y Hy). lia.
  - destruct Hy as [<- | Hy]; [lia |]. eapply IH; eauto.
Qed.

Lemma get_in_values {V} k (d : OrderedDict.t V) v :
  OrderedDict.get k d = Some v -> In v (OrderedDict.values d).
Proof.
  unfold OrderedDict.values.
  induction d as [| [k0 v0] d IH]; simpl; [discriminate |].
  destruct (str_eqb k0 k); [intros [= ->]; now left | auto].
Qed.

Lemma get_in_items {V} k (d : OrderedDict.t V) v :
  OrderedDict.get k d = Some v -> In (k, v) d.
Proof.
  induction d as [| [k0 v0] d IH]; simpl; [discriminate |].
  destruct (str_eqb k0 k) eqn:Hk; [| auto].
  apply str_eqb_eq in Hk as ->. intros [= ->]. now left.
Qed.

Lemma ordered_items_get o d :
  In d (ordered_items o) ->
  In (fst d) (domain_order o)
  /\ OrderedDict.get (fst d) (domains o) = Some (snd d).
Proof.
  unfold ordered_items. rewrite in_flat_map. intros (n & Hn & Hd).
  destruct (OrderedDict.get n (domains o)) as [v |] eqn:Hg; simpl in Hd;
    [| destruct Hd].
  destruct Hd as [<- | []]. simpl. auto.
Qed.

Lemma first_le_start o lo r :
  sort (ravel (OrderedDict.values (domains o))) = lo :: r ->
  forall d, In d (ordered_items o) -> lo <= start_of d.
Proof.
  intros Hs d Hd. apply ordered_items_get in Hd as [_ Hg].
  apply get_in_values in Hg.
  apply (sort_head_le _ _ _ Hs). unfold ravel. apply in_flat_map.
  exists (snd d). split; [assumption | now left].
Qed.

(** *** The walk of the graph writer *)

Lemma increasing_nondecreasing l : increasing l -> nondecreasing l.
Proof.
  induction l as [| x [| y l] IH]; simpl; auto.
  intros [Hxy Hl]. split; [lia | now apply IH].
Qed.

Lemma xvg_visited_all items : forall prev,
  nondecreasing (prev :: map start_of items) ->
  xvg_visited prev items = items.
Proof.
  induction items as [| d items IH]; intros prev H; simpl; [reflexivity |].
  simpl in H. destruct H as [Hle Hrest].
  fold (start_of d). destruct (Z.ltb_spec (start_of d) prev); [lia |].
  now rewrite IH.
Qed.

Lemma xvg_visited_stop pre : forall prev p d post,
  nondecreasing (prev :: map start_of (pre ++ [p])) ->
  start_of d < start_of p ->
  xvg_visited prev (pre ++ p :: d :: post) = pre ++ [p].
Proof.
  induction pre as [| a pre IH]; intros prev p d post Hnd Hlt; simpl in *.
  - destruct Hnd as [Hle _]. fold (start_of p) (start_of d).
    destruct (Z.ltb_spec (start_of p) prev); [lia |].
    destruct (Z.ltb_spec (start_of d) (start_of p)); [reflexivity | lia].
  - destruct Hnd as [Hle Hrest]. fold (start_of a).
    destruct (Z.ltb_spec (start_of a) prev); [lia |].
    now rewrite IH.
Qed.

Lemma xvg_visited_prefix items : forall prev,
  exists rest, items = xvg_visited prev items ++ rest.
Proof.
  induction items as [| d items IH]; intros prev; simpl.
  - now exists [].
  - destruct (_ <? _); [now exists (d :: items) |].
    destruct (IH (fst (snd d))) as (rest & Hr). exists rest.
    simpl. now rewrite <- Hr.
Qed.

(** ** Loading: malformed lines and empty models *)

Lemma not_simple_not_malformed raw :
  is_simple raw = false ->
  malformed raw = false /\ forall off, domain_def off raw = None.
Proof. unfold malformed, domain_def. now intros ->. Qed.

Lemma skipped_or_compound_not_simple raw :
  (is_skipped raw || is_compound raw)%bool = true -> is_simple raw = false.
Proof.
  unfold is_compound, is_simple.
  destruct (is_skipped raw); [reflexivity |]. simpl.
  now intros ->.
Qed.

Lemma disk_file path content : fs (disk path content) path = Some content.
Proof. unfold disk, fs_set. simpl. now rewrite str_eqb_refl. Qed.

(** C5.  A file that holds no simple domain definition, only comments,
    blank lines and compound lines, makes the constructor raise
    IndexError: the sorted array of residues is empty and has no first
    element. *)
Theorem load_without_domains_raises_IndexError path off st content :
  fs st path = Some content ->
  forallb (fun raw => is_skipped raw || is_compound raw)%bool
          (PyStr.lines content) = true ->
  fst (__init__ path off st) = Raise IndexError.
Proof.
  intros Hfile Hlines.
  destruct (init_run path off st content Hfile) as (st' & -> & _). simpl.
  rewrite forallb_forall in Hlines.
  assert (Hns : forall raw, In raw (PyStr.lines content) -> is_simple raw = false).
  { intros raw Hin. now apply skipped_or_compound_not_simple, Hlines. }
  unfold model_of, domain_defs.
  assert (Hmal : existsb malformed (PyStr.lines content) = false).
  { apply not_true_is_false. intros H. apply existsb_exists in H as (raw & Hin & Hm).
    apply Hns, not_simple_not_malformed in Hin as [Hin _]. congruence. }
  rewrite Hmal.
  assert (Hdd : flat_map (fun raw => opt_list (domain_def off raw))
                         (PyStr.lines content) = []).
  { clear Hlines Hmal. induction (PyStr.lines content) as [| raw ls IH];
      [reflexivity |].
    simpl. rewrite IH by (intros; apply Hns; now right).
    destruct (not_simple_not_malformed raw) as [_ ->]; [| reflexivity].
    apply Hns. now left. }
  now rewrite Hdd.
Qed.

Lemma load_without_domains_raises_IndexError_witness :
  fst (__init__ (lit "in.dat") 0 (disk (lit "in.dat") ex_no_domains))
  = Raise IndexError.
Proof.
  apply (load_without_domains_raises_IndexError
           (lit "in.dat") 0 (disk (lit "in.dat") ex_no_domains) ex_no_domains).
  - apply disk_file.
  - reflexivity.
Defined.

(** C4, as the specification has it, fails in both directions: a compound
    line with an empty name loads, and a line of three fields whose
    residues are no integers raises ValueError. *)
Lemma spec_format_error_is_not_what_fails :
  (existsb spec_format_error (PyStr.lines ex_empty_name) = true
   /\ fst (__init__ (lit "in.dat") 0 (disk (lit "in.dat") ex_empty_name)) = OK tt
   /\ compounds (self (loaded_state 0 ex_empty_name)) = [([], lit "A | B")])
  /\ (existsb spec_format_error (PyStr.lines ex_not_integer) = false
      /\ fst (__init__ (lit "in.dat") 0 (disk (lit "in.dat") ex_not_integer))
         = Raise ValueError).
Proof. vm_compute. repeat split. Qed.

(** C4, amended.  The constructor raises ValueError exactly when some
    simple line (not a comment, not empty, not a compound) does not split
    into three fields or has a second or third field that is no integer
    literal; a compound line never fails the load, whatever its name; and
    whenever the constructor raises, the instance it was building is left
    without [first] and [last]. *)
Theorem load_raises_ValueError_iff_malformed_line path off st content :
  fs st path = Some content ->
  (fst (__init__ path off st) = Raise ValueError
   <-> existsb malformed (PyStr.lines content) = true)
  /\ (forall raw, is_compound raw = true -> malformed raw = false)
  /\ (forall e, fst (__init__ path off st) = Raise e ->
        first (self (snd (__init__ path off st))) = None
        /\ last (self (snd (__init__ path off st))) = None).
Proof.
  intros Hfile.
  destruct (init_run path off st content Hfile) as (st' & Hrun & Hst).
  rewrite Hrun. simpl. split; [| split].
  - unfold model_of.
    destruct (existsb malformed (PyStr.lines content)); [tauto |].
    destruct (sort _); [split; discriminate |].
    destruct (rev _); split; discriminate.
  - intros raw Hc. apply not_simple_not_malformed.
    apply skipped_or_compound_not_simple. rewrite Hc. apply orb_true_r.
  - intros e He.
    destruct (model_of path off content); [discriminate | assumption].
Qed.

Lemma load_raises_ValueError_iff_malformed_line_witness :
  fst (__init__ (lit "in.dat") 0 (disk (lit "in.dat") ex_two_fields))
  = Raise ValueError.
Proof.
  apply (load_raises_ValueError_iff_malformed_line
           (lit "in.dat") 0 (disk (lit "in.dat") ex_two_fields) ex_two_fields
           (disk_file _ _)).
  reflexivity.
Defined.

(** ** The secondary-structure graph *)

Lemma Loaded_extrema o :
  Loaded o ->
  exists lo hi,
    first o = Some lo /\ last o = Some hi
    /\ forall d, In d (ordered_items o) -> lo <= start_of d.
Proof.
  intros (content & off & H).
  destruct (LoadedFrom_model _ _ _ H) as (path & Hm).
  apply model_of_inv in Hm as (_ & _ & lo & hi & r & r' & Hs & _ & Hlo & Hhi).
  exists lo, hi. repeat split; try assumption.
  now apply (first_le_start o lo r).
Qed.

Lemma loaded_state_Loaded off content st :
  __init__ (lit "in.dat") off (disk (lit "in.dat") content) = (OK tt, st) ->
  Loaded (self st).
Proof.
  intros H. exists content, off, (disk (lit "in.dat") content), (lit "in.dat"), st.
  split; [apply disk_file | split; [assumption | reflexivity]].
Qed.

(** C6.  In each pass of the graph writer over a loaded instance the text
    written is the opening point, the four corners of every visited
    domain and the closing point, where: if the starts of the domains in
    order-sequence order strictly increase, every domain is visited; if
    some domain starts before its predecessor, the visited domains are
    those before the first such domain; and with three domains of which
    the third starts before the second, the third is never visited, and
    the first two are when the second does not start before the first. *)
Theorem xvg_pass_stops_at_first_decreasing_start st yval :
  Loaded (self st) ->
  exists lo hi,
    first (self st) = Some lo /\ last (self st) = Some hi /\
    let items := ordered_items (self st) in
    let visited := xvg_visited lo items in
    _write yval st
    = (OK tt, mkState (self st) (fs st)
                      (buf st ++ xvg_pass yval lo hi visited) (stdout st)
                      (writable st))
    /\ (increasing (map start_of items) -> visited = items)
    /\ (forall pre p d post,
           items = pre ++ p :: d :: post ->
           nondecreasing (map start_of (pre ++ [p])) ->
           start_of d < start_of p ->
           visited = pre ++ [p])
    /\ (forall a b c,
           items = [a; b; c] -> start_of c < start_of b ->
           (visited = [a] \/ visited = [a; b])
           /\ (start_of a <= start_of b -> visited = [a; b])).
Proof.
  intros HL. pose proof (Loaded_order_in_table _ HL) as Hord.
  destruct (Loaded_extrema _ HL) as (lo & hi & Hlo & Hhi & Hle).
  exists lo, hi. split; [assumption | split; [assumption |]].
  cbv zeta. split; [| split; [| split]].
  - destruct st as [o fsys b out w]. simpl in *. now apply _write_run.
  - intros Hinc. apply xvg_visited_all.
    destruct (ordered_items (self st)) as [| d items] eqn:Hi; [exact I |].
    simpl. split.
    + apply Hle. now left.
    + now apply (increasing_nondecreasing (start_of d :: map start_of items)).
  - intros pre p d post Hitems Hnd Hlt. rewrite Hitems.
    apply xvg_visited_stop; [| assumption].
    assert (Hfirst : forall x l, pre ++ [p] = x :: l -> lo <= start_of x).
    { intros x l Hx. apply Hle. rewrite Hitems.
      change (pre ++ p :: d :: post) with (pre ++ [p] ++ d :: post).
      rewrite app_assoc, Hx. now left. }
    destruct (pre ++ [p]) as [| x l] eqn:Hx; [now destruct pre |].
    simpl. split; [now apply (Hfirst x l) | exact Hnd].
  - intros a b c Hitems Hlt.
    assert (Ha : lo <= start_of a) by (apply Hle; rewrite Hitems; now left).
    rewrite Hitems. simpl. fold (start_of a) (start_of b) (start_of c).
    destruct (Z.ltb_spec (start_of a) lo); [lia |].
    destruct (Z.ltb_spec (start_of c) (start_of b)); [| lia].
    destruct (Z.ltb_spec (start_of b) (start_of a)).
    + split; [now left | lia].
    + split; [now right | reflexivity].
Qed.

Lemma xvg_pass_stops_at_first_decreasing_start_witness :
  exists lo hi,
    first (self (loaded_state 0 ex_third_starts_early)) = Some lo
    /\ last (self (loaded_state 0 ex_third_starts_early)) = Some hi
    /\ _write G_half (loaded_state 0 ex_third_starts_early)
       = (OK tt,
          mkState (self (loaded_state 0 ex_third_starts_early))
                  (fs (loaded_state 0 ex_third_starts_early))
                  (buf (loaded_state 0 ex_third_starts_early)
                   ++ xvg_pass G_half lo hi
                        (xvg_visited lo
                           (ordered_items
                              (self (loaded_state 0 ex_third_starts_early)))))
                  (stdout (loaded_state 0 ex_third_starts_early))
                  (writable (loaded_state 0 ex_third_starts_early))).
Proof.
  destruct (xvg_pass_stops_at_first_decreasing_start
              (loaded_state 0 ex_third_starts_early) G_half)
    as (lo & hi & Hlo & Hhi & Hrun & _).
  - apply (loaded_state_Loaded 0 ex_third_starts_early).
    vm_compute. reflexivity.
  - exists lo, hi. auto.
Defined.

(** C7.  The graph file that [write_xvg] leaves, for a loaded instance
    and a path it can open, is the header followed by exactly two passes,
    the first at height 0.5 and the second at -0.5, with the one line "&"
    between them; each pass opens with the point (first, 0), gives for
    each visited domain the points (start, 0), (start, yval), (end, yval),
    (end, 0) in that order, and closes with (last, 0).  The visited
    domains are those the walk of [_write] reaches: [xvg_visited] of the
    domains in order-sequence order, the same in both passes. *)
Theorem xvg_body_is_two_passes st path :
  Loaded (self st) ->
  writable st path = true ->
  exists lo hi,
    first (self st) = Some lo /\ last (self st) = Some hi
    /\ fst (write_xvg path st) = OK tt
    /\ let visited := xvg_visited lo (ordered_items (self st)) in
       fs (snd (write_xvg path st)) path
       = Some (xvg_header (self st)
               ++ (xvg_point lo G_zero
                   ++ flat_map (fun d =>
                        xvg_point (fst (snd d)) G_zero
                        ++ xvg_point (fst (snd d)) G_half
                        ++ xvg_point (snd (snd d)) G_half
                        ++ xvg_point (snd (snd d)) G_zero) visited
                   ++ xvg_point hi G_zero)
               ++ lit "&" ++ nl
               ++ (xvg_point lo G_zero
                   ++ flat_map (fun d =>
                        xvg_point (fst (snd d)) G_zero
                        ++ xvg_point (fst (snd d)) G_minus_half
                        ++ xvg_point (snd (snd d)) G_minus_half
                        ++ xvg_point (snd (snd d)) G_zero) visited
                   ++ xvg_point hi G_zero)).
Proof.
  intros HL Hw. pose proof (Loaded_order_in_table _ HL) as Hord.
  destruct (Loaded_extrema _ HL) as (lo & hi & Hlo & Hhi & _).
  exists lo, hi.
  rewrite (write_xvg_run path lo hi st Hord Hlo Hhi Hw). simpl.
  repeat split; try assumption.
  unfold fs_set. now rewrite str_eqb_refl.
Qed.

Lemma xvg_body_is_two_passes_witness :
  fs (snd (write_xvg (lit "out.xvg") (loaded_state 0 ex_third_starts_early)))
     (lit "out.xvg")
  = Some (xvg_header (self (loaded_state 0 ex_third_starts_early))
          ++ xvg_pass G_half 1 20 [(lit "A", (1, 5)); (lit "B", (10, 20))]
          ++ lit "&" ++ nl
          ++ xvg_pass G_minus_half 1 20
               [(lit "A", (1, 5)); (lit "B", (10, 20))]).
Proof.
  destruct (xvg_body_is_two_passes
              (loaded_state 0 ex_third_starts_early) (lit "out.xvg"))
    as (lo & hi & Hlo & Hhi & Hok & Hfile).
  - apply (loaded_state_Loaded 0 ex_third_starts_early).
    vm_compute. reflexivity.
  - vm_compute. reflexivity.
  - cbv zeta in Hfile. rewrite Hfile.
    assert (lo = 1) as -> by (vm_compute in Hlo; congruence).
    assert (hi = 20) as -> by (vm_compute in Hhi; congruence).
    vm_compute. reflexivity.
Defined.

(** ** Redefined domains *)

Lemma count_occ_defs {V} (defs : list (str * V)) n :
  count_occ (list_eq_dec ascii_dec) (map fst defs) n
  = length (filter (fun d => str_eqb (fst d) n) defs).
Proof.
  induction defs as [| [k v] defs IH]; simpl; [reflexivity |].
  unfold str_eqb at 1.
  destruct (list_eq_dec ascii_dec k n); simpl; now rewrite IH.
Qed.

Lemma fs_set_same path text f : fs_set path text f path = Some text.
Proof. unfold fs_set. now rewrite str_eqb_refl. Qed.

(** C8, as the specification has it, fails for the graph writer, which
    walks the order sequence too: with the domain A defined twice, the
    second time after a domain that starts later, each pass of the graph
    visits A once. *)
Lemma xvg_emits_redefined_domain_once :
  let st := loaded_state 0 ex_redefined in
  let a := (lit "A", (2, 6)) in
  let b := (lit "B", (10, 20)) in
  domain_defs 0 ex_redefined = [(lit "A", (1, 5)); b; a]
  /\ domain_order (self st) = [lit "A"; lit "B"; lit "A"]
  /\ ordered_items (self st) = [a; b; a]
  /\ fs (snd (write_xvg (lit "out.xvg") st)) (lit "out.xvg")
     = Some (xvg_header (self st)
             ++ xvg_pass G_half 2 20 [a; b]
             ++ lit "&" ++ nl
             ++ xvg_pass G_minus_half 2 20 [a; b]).
Proof. vm_compute. repeat split. Qed.

(** C8, amended.  Every simple line appends its name to the order
    sequence and assigns its range to the table, so the order sequence
    lists a name once per definition and the table holds the range of its
    last definition; the domains the serializers walk are the order
    sequence, each name with that last range; into a file they can open,
    [write], [write_vmd], [write_pymol], [write_charmm] and
    [write_bendix] emit every one of them, a domain defined n times n
    times; [write_xvg] emits those before the point where its walk
    stops. *)
Theorem redefined_domain_is_listed_once_per_definition content off o :
  LoadedFrom content off o ->
  let defs := domain_defs off content in
  domain_order o = map fst defs
  /\ domains o = assign_all defs OrderedDict.empty
  /\ (forall n, OrderedDict.get n (domains o) = last_def n defs)
  /\ (forall n, count_occ (list_eq_dec ascii_dec) (domain_order o) n
                = length (filter (fun d => str_eqb (fst d) n) defs))
  /\ Forall2 (fun n d => fst d = n /\ last_def n defs = Some (snd d))
             (domain_order o) (ordered_items o)
  /\ (forall path st,
         self st = o ->
         writable st path = true ->
         fs (snd (write path st)) path = Some (write_text o)
         /\ fs (snd (write_vmd path st)) path = Some (vmd_text o)
         /\ fs (snd (write_pymol path st)) path = Some (pymol_text o)
         /\ fs (snd (write_charmm path st)) path = Some (charmm_text o)
         /\ fs (snd (write_bendix path st)) path = Some (bendix_text o)
         /\ exists lo hi visited rest,
             ordered_items o = visited ++ rest
             /\ fs (snd (write_xvg path st)) path
                = Some (xvg_header o ++ xvg_pass G_half lo hi visited
                        ++ lit "&" ++ nl
                        ++ xvg_pass G_minus_half lo hi visited)).
Proof.
  intros HL defs.
  assert (HLo : Loaded o) by (now exists content, off).
  pose proof (Loaded_order_in_table _ HLo) as Hord.
  destruct (LoadedFrom_model _ _ _ HL) as (p & Hm).
  destruct (model_of_inv _ _ _ _ Hm) as (_ & Ho & _).
  assert (Hd : domains o = assign_all defs OrderedDict.empty)
    by (rewrite Ho; reflexivity).
  assert (Hn : domain_order o = map fst defs) by (rewrite Ho; reflexivity).
  assert (Hg : forall n, OrderedDict.get n (domains o) = last_def n defs).
  { intros n. rewrite Hd. apply OrderedDictFacts.get_assign_all_empty. }
  split; [assumption | split; [assumption | split; [assumption |]]].
  split; [| split].
  - intros n. rewrite Hn. apply count_occ_defs.
  - rewrite (ordered_items_map o Hord).
    clear -Hord Hg. unfold order_in_table in Hord.
    induction Hord as [| n ns Hne _ IH]; simpl; constructor; [| exact IH].
    simpl. split; [reflexivity |]. rewrite <- Hg. unfold range_of.
    now destruct (OrderedDict.get n (domains o)).
  - intros path st <- Hw.
    rewrite write_run, write_vmd_run, write_pymol_run, write_charmm_run,
      write_bendix_run by assumption.
    simpl. rewrite !fs_set_same. repeat (split; [reflexivity |]).
    destruct (Loaded_extrema _ HLo) as (lo & hi & Hlo & Hhi & _).
    destruct (xvg_visited_prefix (ordered_items (self st)) lo) as (rest & Hr).
    exists lo, hi, (xvg_visited lo (ordered_items (self st))), rest.
    split; [assumption |].
    rewrite (write_xvg_run path lo hi st Hord Hlo Hhi Hw). simpl.
    now rewrite fs_set_same.
Qed.

Lemma redefined_domain_is_listed_once_per_definition_witness :
  domain_order (self (loaded_state 0 ex_redefined))
  = map fst (domain_defs 0 ex_redefined)
  /\ count_occ (list_eq_dec ascii_dec)
               (domain_order (self (loaded_state 0 ex_redefined))) (lit "A")
     = 2%nat.
Proof.
  destruct (redefined_domain_is_listed_once_per_definition
              ex_redefined 0 (self (loaded_state 0 ex_redefined)))
    as (Hn & _ & _ & Hc & _).
  - exists (disk (lit "in.dat") ex_redefined), (lit "in.dat"),
      (loaded_state 0 ex_redefined).
    split; [apply disk_file | split; [vm_compute |]; reflexivity].
  - split; [exact Hn |]. rewrite Hc. vm_compute. reflexivity.
Defined.

(** ** Reading back what [write] wrote *)

Lemma no_nl_app a b : no_nl (a ++ b) = (no_nl a && no_nl b)%bool.
Proof. apply forallb_app. Qed.

Lemma no_nl_In l : no_nl l = true -> ~ In chr_nl l.
Proof.
  unfold no_nl. rewrite forallb_forall. intros H Hin.
  specialize (H _ Hin). now rewrite Ascii.eqb_refl in H.
Qed.

Lemma In_no_nl l : ~ In chr_nl l -> no_nl l = true.
Proof.
  intros H. apply forallb_forall. intros c Hc.
  destruct (Ascii.eqb_spec c chr_nl) as [-> | _]; [contradiction | reflexivity].
Qed.

Lemma nospace_is_no_nl w : nospace w = true -> no_nl w = true.
Proof. intros H. now apply In_no_nl, PyStrFacts.nospace_no_nl. Qed.

Lemma spaces_no_nl n : no_nl (PyStr.spaces n) = true.
Proof. induction n; simpl; auto. Qed.

Lemma str_of_int_no_nl z : no_nl (PyStr.str_of_int z) = true.
Proof.
  apply nospace_is_no_nl.
  pose proof (PyStrFacts.str_of_int_field z) as H.
  now apply andb_prop in H as [_ H].
Qed.

Lemma fmt_d_no_nl n z : no_nl (PyStr.fmt_d n z) = true.
Proof.
  unfold PyStr.fmt_d, PyStr.rjust.
  now rewrite no_nl_app, spaces_no_nl, str_of_int_no_nl.
Qed.

Lemma ljust_no_nl n w : no_nl w = true -> no_nl (PyStr.ljust n w) = true.
Proof.
  intros H. unfold PyStr.ljust. now rewrite no_nl_app, H, spaces_no_nl.
Qed.

(** *** The three kinds of lines *)

Lemma skipped_line raw off :
  is_skipped raw = true ->
  malformed raw = false /\ domain_def off raw = None /\ compound_def raw = None.
Proof.
  intros H. unfold malformed, domain_def, compound_def, is_simple, is_compound.
  now rewrite H.
Qed.

Lemma is_skipped_hash t : is_skipped ("#"%char :: t) = true.
Proof.
  unfold is_skipped.
  destruct (PyStrFacts.strip_cons "#" t eq_refl) as (t' & ->). reflexivity.
Qed.

Lemma clamp_0 z : 1 <= z -> clamp 0 z = z.
Proof. unfold clamp. lia. Qed.

(** A line that [write] makes of a domain is a simple line of three
    fields: the name and the two residues. *)
Lemma domain_line_shape n s e :
  good_domain (n, (s, e)) = true ->
  let raw := write_domline n s e ++ nl in
  is_simple raw = true
  /\ is_compound raw = false
  /\ fields_of raw = [n; PyStr.str_of_int s; PyStr.str_of_int e]
  /\ 1 <= s /\ 1 <= e.
Proof.
  intros H raw. unfold good_domain in H. simpl in H.
  apply andb_prop in H as [H He]. apply andb_prop in H as [H Hs].
  apply andb_prop in H as [H Hat]. apply andb_prop in H as [Hn Hhash].
  apply Z.leb_le in Hs, He.
  apply negb_true_iff in Hat, Hhash.
  pose proof Hn as Hfield. apply andb_prop in Hn as [Hne Hnsp].
  destruct n as [| c n']; [discriminate |].
  assert (Hc : PyStr.isspace c = false).
  { simpl in Hnsp. apply andb_prop in Hnsp as [Hc _].
    now apply negb_true_iff in Hc. }
  assert (Hstrip : exists t', PyStr.strip raw = c :: t').
  { unfold raw, write_domline, PyStr.ljust. simpl.
    now apply PyStrFacts.strip_cons. }
  assert (Hfields : fields_of raw
                    = [c :: n'; PyStr.str_of_int s; PyStr.str_of_int e]).
  { unfold fields_of. rewrite PyStrFacts.split_strip.
    set (k0 := (11 - length (c :: n'))%nat).
    set (k1 := (5 - length (PyStr.str_of_int s))%nat).
    set (k2 := (5 - length (PyStr.str_of_int e))%nat).
    assert (Hraw : raw = (c :: n') ++ (PyStr.spaces k0 ++ lit " ")
                         ++ PyStr.spaces k1
                         ++ PyStr.str_of_int s ++ lit "  "
                         ++ PyStr.spaces k2
                         ++ PyStr.str_of_int e ++ [chr_nl]).
    { unfold raw, write_domline, PyStr.ljust, PyStr.fmt_d, PyStr.rjust.
      fold k0 k1 k2. now list_norm. }
    rewrite Hraw.
    rewrite (PyStrFacts.split_word_gap (c :: n') (PyStr.spaces k0 ++ lit " "));
      [| assumption
       | rewrite PyStrFacts.allspace_app, PyStrFacts.allspace_spaces;
         reflexivity
       | now destruct (PyStr.spaces k0)].
    rewrite PyStrFacts.split_allspace_app by apply PyStrFacts.allspace_spaces.
    rewrite (PyStrFacts.split_word_gap (PyStr.str_of_int s) (lit "  "));
      [| apply PyStrFacts.str_of_int_field | reflexivity | discriminate].
    rewrite PyStrFacts.split_allspace_app by apply PyStrFacts.allspace_spaces.
    rewrite (PyStrFacts.split_word_ws (PyStr.str_of_int e) chr_nl []);
      [reflexivity | apply PyStrFacts.str_of_int_field | reflexivity]. }
  destruct Hstrip as (t' & Hstrip).
  simpl in Hhash, Hat.
  assert (Hsimple : is_simple raw = true).
  { unfold is_simple, is_skipped. rewrite Hstrip. simpl.
    now rewrite Hhash, Hat. }
  repeat split; try assumption.
  unfold is_compound. unfold is_simple in Hsimple.
  apply andb_prop in Hsimple as [_ Hnat].
  apply negb_true_iff in Hnat. now rewrite Hnat, andb_false_r.
Qed.

(** Read with offset [k], the line defines the domain with its residues
    shifted by [k]. *)
Lemma domain_line_off k n s e :
  good_domain (n, (s, e)) = true ->
  let raw := write_domline n s e ++ nl in
  malformed raw = false
  /\ domain_def k raw = Some (n, (clamp k s, clamp k e))
  /\ compound_def raw = None.
Proof.
  intros H raw.
  destruct (domain_line_shape n s e H) as (Hsimple & Hcomp & Hfields & _).
  fold raw in Hsimple, Hcomp, Hfields.
  unfold malformed, domain_def, compound_def.
  now rewrite Hsimple, Hcomp, Hfields, !PyStrFacts.int_literal_str_of_int.
Qed.

Lemma domain_line n s e :
  good_domain (n, (s, e)) = true ->
  let raw := write_domline n s e ++ nl in
  malformed raw = false
  /\ domain_def 0 raw = Some (n, (s, e))
  /\ compound_def raw = None.
Proof.
  intros H raw.
  destruct (domain_line_shape n s e H) as (_ & _ & _ & Hs & He).
  destruct (domain_line_off 0 n s e H) as (Hm & Hd & Hc).
  fold raw in Hm, Hd, Hc. rewrite !clamp_0 in Hd by assumption. auto.
Qed.

Lemma compound_line n d off :
  good_compound (n, d) = true ->
  let raw := write_compline n d ++ nl in
  malformed raw = false
  /\ domain_def off raw = None
  /\ compound_def raw = Some (n, d).
Proof.
  intros H raw. unfold good_compound in H. simpl in H.
  apply andb_prop in H as [Hn Hd]. apply str_eqb_eq in Hd.
  assert (Hstrip : exists t', PyStr.strip raw = "@"%char :: t').
  { unfold raw, write_compline. simpl. now apply PyStrFacts.strip_cons. }
  assert (Hfields : fields_of raw = ("@"%char :: n) :: PyStr.split d).
  { unfold fields_of. rewrite PyStrFacts.split_strip.
    set (k0 := (11 - length n)%nat).
    assert (Hraw : raw = ("@"%char :: n) ++ (PyStr.spaces k0 ++ lit "  ")
                         ++ d ++ [chr_nl]).
    { unfold raw, write_compline, PyStr.ljust. fold k0. now list_norm. }
    rewrite Hraw.
    rewrite (PyStrFacts.split_word_gap ("@"%char :: n)
                                       (PyStr.spaces k0 ++ lit "  "));
      [| exact Hn
       | rewrite PyStrFacts.allspace_app, PyStrFacts.allspace_spaces;
         reflexivity
       | now destruct (PyStr.spaces k0)].
    unfold PyStr.split.
    now rewrite (PyStrFacts.split_aux_snoc_space chr_nl eq_refl). }
  destruct Hstrip as (t' & Hstrip).
  assert (Hcomp : is_compound raw = true).
  { unfold is_compound, is_skipped. now rewrite Hstrip. }
  assert (Hsimple : is_simple raw = false).
  { apply skipped_or_compound_not_simple. rewrite Hcomp. apply orb_true_r. }
  unfold malformed, domain_def, compound_def.
  rewrite Hsimple, Hcomp, Hfields. simpl. now rewrite Hd.
Qed.

(** *** What [load] guarantees *)

Lemma domain_def_good off raw d :
  domain_def off raw = Some d -> good_domain d = true.
Proof.
  unfold domain_def, is_simple, is_skipped, fields_of.
  pose proof (PyStrFacts.strip_head raw) as Hhead.
  pose proof (PyStrFacts.split_fields (PyStr.strip raw)) as Hfields.
  destruct (PyStr.strip raw) as [| c t] eqn:Hstrip; [discriminate |].
  destruct (PyStrFacts.split_first c t Hhead) as (w & r & Hsplit).
  rewrite Hsplit in *.
  destruct (negb _ && negb _)%bool eqn:Hsimple; [| discriminate].
  destruct r as [| a [| b [| ? ?]]]; try discriminate.
  destruct (PyStr.int_literal a) as [x |]; [| discriminate].
  destruct (PyStr.int_literal b) as [y |]; [| discriminate].
  intros [= <-]. unfold good_domain, clamp. simpl.
  inversion Hfields as [| ? ? Hn _]; subst. rewrite Hn. simpl.
  apply andb_prop in Hsimple as [Hh Hat]. simpl in Hh, Hat.
  rewrite orb_false_r in Hh. rewrite Hh, Hat. simpl.
  apply andb_true_intro. split; apply Z.leb_le; lia.
Qed.

Lemma compound_def_good raw c :
  compound_def raw = Some c -> good_compound c = true.
Proof.
  unfold compound_def, fields_of.
  pose proof (PyStrFacts.split_fields (PyStr.strip raw)) as Hfields.
  destruct (is_compound raw); [| discriminate].
  destruct (PyStr.split (PyStr.strip raw)) as [| f0 rest]; [discriminate |].
  intros [= <-]. unfold good_compound. simpl.
  inversion Hfields as [| ? ? Hf0 Hrest]; subst.
  rewrite PyStrFacts.split_join by assumption. rewrite str_eqb_refl.
  rewrite andb_true_r.
  apply andb_prop in Hf0 as [_ Hf0].
  destruct f0 as [| c f0]; [reflexivity |]. simpl in *.
  now apply andb_prop in Hf0 as [_ Hf0].
Qed.

Lemma good_compound_no_nl c : good_compound c = true -> no_nl (snd c) = true.
Proof.
  unfold good_compound. intros H. apply andb_prop in H as [_ H].
  apply str_eqb_eq in H. rewrite <- H.
  apply In_no_nl, PyStrFacts.join_no_nl, PyStrFacts.split_fields.
Qed.

Lemma In_set {V} k v (d : OrderedDict.t V) x :
  In x (OrderedDict.set k v d) -> x = (k, v) \/ In x d.
Proof.
  induction d as [| [k0 v0] d IH]; simpl.
  - intros [<- | []]. now left.
  - destruct (str_eqb k0 k) eqn:Hk; simpl.
    + apply str_eqb_eq in Hk as ->. intros [<- | H]; auto.
    + intros [<- | H]; [auto |]. apply IH in H. tauto.
Qed.

Lemma In_assign_all {V} (defs : list (str * V)) : forall d x,
  In x (assign_all defs d) -> In x defs \/ In x d.
Proof.
  induction defs as [| [k v] defs IH]; intros d x; simpl; [tauto |].
  intros H. apply IH in H as [H | H]; [tauto |].
  apply In_set in H as [-> | H]; auto.
Qed.

Lemma domain_defs_good off content :
  Forall (fun d => good_domain d = true) (domain_defs off content).
Proof.
  unfold domain_defs. apply Forall_forall. intros d Hd.
  apply in_flat_map in Hd as (raw & _ & Hd).
  destruct (domain_def off raw) as [d' |] eqn:Hdd; [| destruct Hd].
  destruct Hd as [<- | []]. eapply domain_def_good; eauto.
Qed.

Lemma compound_defs_good content :
  Forall (fun c => good_compound c = true) (compound_defs content).
Proof.
  unfold compound_defs. apply Forall_forall. intros c Hc.
  apply in_flat_map in Hc as (raw & _ & Hc).
  destruct (compound_def raw) as [c' |] eqn:Hcd; [| destruct Hc].
  destruct Hc as [<- | []]. eapply compound_def_good; eauto.
Qed.

(** *** What [load] reads out of a text, line by line *)

Lemma sem_nil off : sem off [] = (false, [], []).
Proof. reflexivity. Qed.

Lemma sem_line off l rest :
  no_nl l = true ->
  sem off (l ++ chr_nl :: rest) =
  ((malformed (l ++ [chr_nl]) || fst (fst (sem off rest)))%bool,
   opt_list (domain_def off (l ++ [chr_nl])) ++ snd (fst (sem off rest)),
   opt_list (compound_def (l ++ [chr_nl])) ++ snd (sem off rest)).
Proof.
  intros Hl. unfold sem, domain_defs, compound_defs.
  rewrite PyStrFacts.lines_line by now apply no_nl_In.
  reflexivity.
Qed.

Lemma sem_skip off l rest :
  no_nl l = true -> is_skipped (l ++ [chr_nl]) = true ->
  sem off (l ++ chr_nl :: rest) = sem off rest.
Proof.
  intros Hl Hskip. rewrite sem_line by assumption.
  destruct (skipped_line _ off Hskip) as (-> & -> & ->).
  unfold sem. reflexivity.
Qed.

Lemma write_domline_no_nl n s e :
  nospace n = true -> no_nl (write_domline n s e) = true.
Proof.
  intros Hn. unfold write_domline.
  rewrite !no_nl_app, !fmt_d_no_nl, ljust_no_nl by now apply nospace_is_no_nl.
  reflexivity.
Qed.

Lemma write_compline_no_nl n d :
  nospace n = true -> no_nl d = true -> no_nl (write_compline n d) = true.
Proof.
  intros Hn Hd. unfold write_compline.
  rewrite !no_nl_app, Hd, ljust_no_nl by now apply nospace_is_no_nl.
  reflexivity.
Qed.

Lemma good_domain_nospace d : good_domain d = true -> nospace (fst d) = true.
Proof.
  unfold good_domain. intros H.
  do 4 (apply andb_prop in H as [H _]). now apply andb_prop in H as [_ H].
Qed.

Lemma sem_domains items : forall rest,
  Forall (fun d => good_domain d = true) items ->
  sem 0 (flat_map (fun d => write_domline (fst d) (fst (snd d)) (snd (snd d))
                            ++ nl) items ++ rest)
  = (fst (fst (sem 0 rest)), items ++ snd (fst (sem 0 rest)), snd (sem 0 rest)).
Proof.
  induction items as [| [n [s e]] items IH]; intros rest Hgood;
    cbn [flat_map fst snd].
  - unfold sem. reflexivity.
  - inversion Hgood as [| ? ? Hd Hitems]; subst.
    unfold nl. rewrite <- !app_assoc. cbn [app].
    rewrite sem_line
      by now apply write_domline_no_nl, (good_domain_nospace (n, (s, e))).
    destruct (domain_line n s e Hd) as (H1 & H2 & H3).
    unfold nl in H1, H2, H3. rewrite H1, H2, H3.
    fold nl. rewrite IH by assumption. reflexivity.
Qed.

Lemma sem_compounds off cs : forall rest,
  Forall (fun c => good_compound c = true) cs ->
  sem off (flat_map (fun c => write_compline (fst c) (snd c) ++ nl) cs ++ rest)
  = (fst (fst (sem off rest)), snd (fst (sem off rest)), cs ++ snd (sem off rest)).
Proof.
  induction cs as [| [n d] cs IH]; intros rest Hgood; cbn [flat_map fst snd].
  - unfold sem. reflexivity.
  - inversion Hgood as [| ? ? Hc Hcs]; subst.
    unfold nl. rewrite <- !app_assoc. cbn [app].
    rewrite sem_line.
    + destruct (compound_line n d off Hc) as (H1 & H2 & H3).
      unfold nl in H1, H2, H3. rewrite H1, H2, H3.
      fold nl. rewrite IH by assumption. reflexivity.
    + apply write_compline_no_nl.
      * unfold good_compound in Hc. now apply andb_prop in Hc as [Hc _].
      * now apply (good_compound_no_nl (n, d)).
Qed.

Lemma sem_write_header off o rest :
  sem off (write_header o ++ rest) = sem off rest.
Proof.
  set (r := PyStr.repr (filename o)).
  set (z := PyStr.str_of_int (offset o)).
  assert (Hshape :
    write_header o ++ rest
    = lit "# $Id: domdef.py 1155 2010-05-17 17:15:26Z oliver $" ++ chr_nl ::
      lit "# This file is in a format suitable for scripts/domdef.py" ++ chr_nl ::
      ("#"%char :: lit " input = " ++ r) ++ chr_nl ::
      ("#"%char :: lit " offset = " ++ z) ++ chr_nl ::
      [] ++ chr_nl ::
      lit "# name      start    end" ++ chr_nl :: rest).
  { unfold write_header, nl. fold r z. now list_norm. }
  rewrite Hshape.
  rewrite sem_skip by reflexivity.
  rewrite sem_skip by reflexivity.
  rewrite sem_skip.
  - rewrite sem_skip.
    + rewrite sem_skip by reflexivity. now rewrite sem_skip by reflexivity.
    + change (no_nl (lit "# offset = " ++ z) = true).
      rewrite no_nl_app. unfold z. now rewrite str_of_int_no_nl.
    + apply is_skipped_hash.
  - change (no_nl (lit "# input = " ++ r) = true).
    rewrite no_nl_app. unfold r.
    now rewrite (In_no_nl _ (PyStrFacts.repr_no_nl (filename o))).
  - apply is_skipped_hash.
Qed.

(** The text that [write] leaves reads back as the walked domains and the
    compounds of the instance. *)
Lemma sem_write_text o :
  Forall (fun d => good_domain d = true) (ordered_items o) ->
  Forall (fun c => good_compound c = true) (compounds o) ->
  sem 0 (write_text o) = (false, ordered_items o, compounds o).
Proof.
  intros Hd Hc. unfold write_text, body_text.
  rewrite sem_write_header.
  rewrite sem_domains by assumption.
  assert (Hmark : forall rest,
             sem 0 (lit "# compound statements" ++ nl ++ rest) = sem 0 rest).
  { intros rest.
    change (lit "# compound statements" ++ nl ++ rest)
      with (lit "# compound statements" ++ chr_nl :: rest).
    now rewrite sem_skip by reflexivity. }
  rewrite Hmark.
  rewrite <- (app_nil_r (flat_map _ (compounds o))).
  rewrite sem_compounds by assumption.
  rewrite sem_nil. simpl. now rewrite !app_nil_r.
Qed.

(** *** The round trip *)

Lemma model_good_items path off content o :
  model_of path off content = OK o ->
  Forall (fun d => good_domain d = true) (ordered_items o)
  /\ Forall (fun c => good_compound c = true) (compounds o).
Proof.
  intros Hm. apply model_of_inv in Hm as (_ & Ho & _).
  pose proof (domain_defs_good off content) as Hdg.
  pose proof (compound_defs_good content) as Hcg.
  rewrite Forall_forall in Hdg, Hcg.
  split; apply Forall_forall.
  - intros [n v] Hin. apply ordered_items_get in Hin as [_ Hg]. simpl in Hg.
    apply get_in_items in Hg. rewrite Ho in Hg. simpl in Hg.
    apply In_assign_all in Hg as [Hg | []]. now apply Hdg.
  - intros c Hin. rewrite Ho in Hin. simpl in Hin.
    apply In_assign_all in Hin as [Hin | []]. now apply Hcg.
Qed.

Lemma model_round_trip path off content o pout :
  model_of path off content = OK o ->
  model_of pout 0 (write_text o)
  = OK (mkDomDef pout (domains o) (compounds o) (domain_order o) 0
                 (first o) (last o)).
Proof.
  intros Hm.
  destruct (model_good_items _ _ _ _ Hm) as [Hdg Hcg].
  pose proof (model_order_in_table _ _ _ _ Hm) as Hord.
  pose proof (sem_write_text o Hdg Hcg) as Hsem.
  pose proof (f_equal (fun t => fst (fst t)) Hsem) as Hmal.
  pose proof (f_equal (fun t => snd (fst t)) Hsem) as Hdefs.
  pose proof (f_equal snd Hsem) as Hcomps.
  unfold sem in Hmal, Hdefs, Hcomps. cbn [fst snd] in Hmal, Hdefs, Hcomps.
  clear Hsem.
  destruct (model_of_inv _ _ _ _ Hm)
    as (_ & Ho & lo & hi & r & r' & Hsort & Hrev & Hlo & Hhi).
  assert (Hitems : ordered_items o
                   = map (fun n => (n, range_of o n))
                         (map fst (domain_defs off content))).
  { rewrite (ordered_items_map o Hord).
    replace (domain_order o) with (map fst (domain_defs off content))
      by (rewrite Ho; reflexivity).
    reflexivity. }
  assert (Hd : assign_all (ordered_items o) OrderedDict.empty = domains o).
  { rewrite Hitems.
    replace (domains o)
      with (assign_all (domain_defs off content) (@OrderedDict.empty (Z * Z)))
      by (rewrite Ho; reflexivity).
    apply OrderedDictFacts.reassign. intros n Hn.
    assert (Hg : OrderedDict.get n (domains o) <> None).
    { rewrite Ho. simpl. rewrite OrderedDictFacts.get_assign_all_empty.
      now apply OrderedDictFacts.last_def_in. }
    unfold range_of.
    replace (assign_all (domain_defs off content) OrderedDict.empty)
      with (domains o) by (rewrite Ho; reflexivity).
    now destruct (OrderedDict.get n (domains o)). }
  assert (Hc : assign_all (compounds o) OrderedDict.empty = compounds o).
  { apply (OrderedDictFacts.assign_all_fresh (compounds o) []).
    simpl. rewrite Ho. simpl. apply OrderedDictFacts.NoDup_keys_assign_all. }
  assert (Hn : map fst (ordered_items o) = domain_order o).
  { rewrite (ordered_items_map o Hord), map_map. simpl. apply map_id. }
  unfold model_of. rewrite Hmal, Hdefs, Hcomps, Hd, Hc, Hn, Hsort, Hrev.
  now rewrite Hlo, Hhi.
Qed.

(** C1.  Round trip: whenever the constructor has loaded an instance,
    [write] succeeds on it for every path that can be opened for writing,
    and constructing an instance from the written file with offset 0
    succeeds and gives the same domain table, the same order sequence and
    the same compound table (names, order and values), and the same
    extrema.  This holds for every loadable input, so in particular for
    those that define no name twice. *)
Theorem write_then_load_round_trips pin off st0 st1 pout :
  __init__ pin off st0 = (OK tt, st1) ->
  writable st1 pout = true ->
  exists st2 st3,
    write pout st1 = (OK tt, st2)
    /\ __init__ pout 0 st2 = (OK tt, st3)
    /\ domains (self st3) = domains (self st1)
    /\ domain_order (self st3) = domain_order (self st1)
    /\ compounds (self st3) = compounds (self st1)
    /\ first (self st3) = first (self st1)
    /\ last (self st3) = last (self st1).
Proof.
  intros Hload Hw.
  destruct (init_ok_model _ _ _ _ Hload) as (content & o & Hfile & Hm & ->).
  pose proof (model_order_in_table _ _ _ _ Hm) as Hord.
  eexists.
  destruct (init_run pout 0
              (mkState o (fs_set pout (write_text o) (fs st0)) (buf st0)
                       (stdout st0) (writable st0))
              (write_text o)) as (st3 & Hrun & Hst3).
  { simpl. apply fs_set_same. }
  rewrite (model_round_trip _ _ _ _ pout Hm) in Hrun, Hst3.
  exists st3. split; [| split].
  - now rewrite write_run by assumption.
  - exact Hrun.
  - subst st3. simpl. auto.
Qed.

Lemma write_then_load_round_trips_witness :
  exists st2 st3,
    write (lit "out.dat") (loaded_state 3 ex_redefined) = (OK tt, st2)
    /\ __init__ (lit "out.dat") 0 st2 = (OK tt, st3)
    /\ domains (self st3) = domains (self (loaded_state 3 ex_redefined))
    /\ domain_order (self st3)
       = domain_order (self (loaded_state 3 ex_redefined))
    /\ compounds (self st3) = compounds (self (loaded_state 3 ex_redefined))
    /\ first (self st3) = first (self (loaded_state 3 ex_redefined))
    /\ last (self st3) = last (self (loaded_state 3 ex_redefined)).
Proof.
  apply (write_then_load_round_trips
           (lit "in.dat") 3 (disk (lit "in.dat") ex_redefined)).
  - vm_compute. reflexivity.
  - vm_compute. reflexivity.
Defined.

(** * Further properties of the code *)

(** ** The extrema *)

Lemma In_insert_sorted x l y : In y (insert_sorted x l) <-> y = x \/ In y l.
Proof.
  induction l as [| z l IH]; simpl.
  - intuition.
  - destruct (x <=? z); simpl; [intuition |]. rewrite IH. intuition.
Qed.

Lemma In_sort l y : In y (sort l) <-> In y l.
Proof.
  induction l as [| x l IH]; simpl; [tauto |].
  rewrite In_insert_sorted, IH. intuition.
Qed.

Lemma insert_sorted_sorted x l :
  StronglySorted Z.le l -> StronglySorted Z.le (insert_sorted x l).
Proof.
  induction 1 as [| z l Hs IH Hall]; simpl.
  - repeat constructor.
  - destruct (Z.leb_spec x z) as [Hle | Hgt].
    + constructor; [now constructor |].
      constructor; [assumption |].
      apply Forall_forall. intros y Hy. rewrite Forall_forall in Hall.
      specialize (Hall y Hy). lia.
    + constructor; [assumption |].
      apply Forall_forall. intros y Hy. apply In_insert_sorted in Hy.
      rewrite Forall_forall in Hall. destruct Hy as [-> | Hy]; [lia | auto].
Qed.

Lemma sort_sorted l : StronglySorted Z.le (sort l).
Proof.
  induction l as [| x l IH]; simpl; [constructor |].
  now apply insert_sorted_sorted.
Qed.

Lemma sorted_last_ge l :
  StronglySorted Z.le l ->
  forall hi r, rev l = hi :: r -> forall y, In y l -> y <= hi.
Proof.
  induction 1 as [| z l Hs IH Hall]; intros hi r Hrev y Hy; [destruct Hy |].
  simpl in Hrev. destruct (rev l) as [| h t] eqn:Hr.
  - apply (f_equal (@rev Z)) in Hr. rewrite rev_involutive in Hr. subst l.
    injection Hrev as <- <-. destruct Hy as [<- | []]. lia.
  - simpl in Hrev. injection Hrev as <- <-.
    assert (Hh : In h l).
    { apply in_rev. rewrite Hr. now left. }
    destruct Hy as [<- | Hy].
    + rewrite Forall_forall in Hall. now apply Hall.
    + now apply (IH h t eq_refl).
Qed.

(** X1.  When every residue of the table is below 2^63, the extrema
    that [load] computes are the smallest and the largest residue of the
    domain table: both occur in the table, and every start and every end
    lies between them. *)
Theorem extrema_are_min_and_max o :
  Loaded o ->
  residues_fit o ->
  exists lo hi,
    first o = Some lo /\ last o = Some hi
    /\ In lo (ravel (OrderedDict.values (domains o)))
    /\ In hi (ravel (OrderedDict.values (domains o)))
    /\ forall v, In v (ravel (OrderedDict.values (domains o))) ->
                 lo <= v <= hi.
Proof.
  intros (content & off & H) _.
  destruct (LoadedFrom_model _ _ _ H) as (path & Hm).
  apply model_of_inv in Hm as (_ & _ & lo & hi & r & r' & Hs & Hr & Hlo & Hhi).
  exists lo, hi. split; [assumption | split; [assumption |]].
  set (resids := ravel (OrderedDict.values (domains o))) in *.
  split; [| split].
  - apply In_sort. rewrite Hs. now left.
  - apply In_sort, in_rev. rewrite Hs, Hr. now left.
  - intros v Hv. split.
    + now apply (sort_head_le resids lo r Hs).
    + apply (sorted_last_ge (sort resids) (sort_sorted resids) hi r').
      * now rewrite Hs.
      * now apply In_sort.
Qed.

Lemma extrema_are_min_and_max_witness :
  exists lo hi,
    first (self (loaded_state 0 ex_third_starts_early)) = Some lo
    /\ last (self (loaded_state 0 ex_third_starts_early)) = Some hi
    /\ lo <= 7 <= hi.
Proof.
  destruct (extrema_are_min_and_max (self (loaded_state 0 ex_third_starts_early)))
    as (lo & hi & Hlo & Hhi & _ & _ & Hall).
  - apply (loaded_state_Loaded 0 ex_third_starts_early).
    vm_compute. reflexivity.
  - vm_compute. reflexivity.
  - exists lo, hi. split; [assumption | split; [assumption |]].
    apply Hall. vm_compute. tauto.
Defined.

(** ** The tables of a loaded instance *)

Lemma In_add_key ks k n : In n (add_key ks k) <-> In n ks \/ n = k.
Proof.
  unfold add_key. destruct (existsb _ ks) eqn:He.
  - apply OrderedDictFacts.existsb_key in He. intuition congruence.
  - rewrite in_app_iff. simpl. intuition.
Qed.

Lemma In_fold_add_key ns : forall ks n,
  In n (fold_left add_key ns ks) <-> In n ks \/ In n ns.
Proof.
  induction ns as [| m ns IH]; intros ks n; simpl; [tauto |].
  rewrite IH, In_add_key. intuition.
Qed.

Lemma In_first_occurrences ns n : In n (first_occurrences ns) <-> In n ns.
Proof. unfold first_occurrences. rewrite In_fold_add_key. simpl. tauto. Qed.

Lemma Loaded_has_domain o : Loaded o -> domain_order o <> [].
Proof.
  intros (content & off & H).
  destruct (LoadedFrom_model _ _ _ H) as (path & Hm).
  destruct (model_of_inv _ _ _ _ Hm)
    as (_ & Ho & lo & hi & r & r' & Hs & _ & _ & _).
  intros Hnil.
  assert (Hd : domains o = assign_all (domain_defs off content) OrderedDict.empty)
    by (rewrite Ho; reflexivity).
  assert (Hn : domain_order o = map fst (domain_defs off content))
    by (rewrite Ho; reflexivity).
  rewrite Hn in Hnil.
  destruct (domain_defs off content) as [| d defs] eqn:Hdefs; [| discriminate].
  rewrite Hd in Hs. discriminate.
Qed.

(** X2.  The tables of a loaded instance are well formed: no name occurs
    twice among the keys of the domain table or of the compound table;
    the keys of the domain table are the names of the order sequence in
    the order of their first occurrence, so every name of the sequence
    has an entry; there is at least one domain; every domain name is a
    non-empty field without whitespace that starts neither with # nor
    with @; and every residue in the table is at least 1. *)
Theorem loaded_tables_are_well_formed o :
  Loaded o ->
  NoDup (OrderedDict.keys (domains o))
  /\ NoDup (OrderedDict.keys (compounds o))
  /\ OrderedDict.keys (domains o) = first_occurrences (domain_order o)
  /\ (forall n, In n (domain_order o) <-> In n (OrderedDict.keys (domains o)))
  /\ domain_order o <> []
  /\ (forall n s e,
         In (n, (s, e)) (domains o) ->
         is_field n = true
         /\ PyStr.startswith "#" n = false
         /\ PyStr.startswith "@" n = false
         /\ 1 <= s /\ 1 <= e).
Proof.
  intros (content & off & H).
  destruct (LoadedFrom_model _ _ _ H) as (path & Hm).
  destruct (model_of_inv _ _ _ _ Hm)
    as (_ & Ho & lo & hi & r & r' & Hs & _ & _ & _).
  assert (Hd : domains o = assign_all (domain_defs off content) OrderedDict.empty)
    by (rewrite Ho; reflexivity).
  assert (Hc : compounds o = assign_all (compound_defs content) OrderedDict.empty)
    by (rewrite Ho; reflexivity).
  assert (Hn : domain_order o = map fst (domain_defs off content))
    by (rewrite Ho; reflexivity).
  assert (Hk : OrderedDict.keys (domains o) = first_occurrences (domain_order o)).
  { rewrite Hd, Hn. apply OrderedDictFacts.keys_assign_all. }
  split; [rewrite Hd; apply OrderedDictFacts.NoDup_keys_assign_all |].
  split; [rewrite Hc; apply OrderedDictFacts.NoDup_keys_assign_all |].
  split; [exact Hk |].
  split; [intros n; now rewrite Hk, In_first_occurrences |].
  split.
  - intros Hnil. rewrite Hn in Hnil.
    destruct (domain_defs off content) as [| d defs] eqn:Hdefs; [| discriminate].
    rewrite Hd in Hs. discriminate.
  - intros n s e Hin. rewrite Hd in Hin.
    apply In_assign_all in Hin as [Hin | []].
    pose proof (domain_defs_good off content) as Hg.
    rewrite Forall_forall in Hg. specialize (Hg _ Hin).
    unfold good_domain in Hg. simpl in Hg.
    apply andb_prop in Hg as [Hg He]. apply andb_prop in Hg as [Hg Hs'].
    apply andb_prop in Hg as [Hg Hat]. apply andb_prop in Hg as [Hf Hh].
    apply negb_true_iff in Hat, Hh. apply Z.leb_le in He, Hs'. auto.
Qed.

Lemma loaded_tables_are_well_formed_witness :
  NoDup (OrderedDict.keys (domains (self (loaded_state 0 ex_redefined))))
  /\ OrderedDict.keys (domains (self (loaded_state 0 ex_redefined)))
     = first_occurrences (domain_order (self (loaded_state 0 ex_redefined))).
Proof.
  destruct (loaded_tables_are_well_formed (self (loaded_state 0 ex_redefined)))
    as (Hd & _ & Hk & _).
  - apply (loaded_state_Loaded 0 ex_redefined). vm_compute. reflexivity.
  - split; assumption.
Defined.

(** X3.  A name that is defined more than once keeps, in its table, the
    position of its first definition and holds the value of its last:
    this is so for the compound table as for the domain table. *)
Theorem redefinition_overwrites_in_place content off o :
  LoadedFrom content off o ->
  OrderedDict.keys (compounds o)
  = first_occurrences (map fst (compound_defs content))
  /\ (forall n, OrderedDict.get n (compounds o)
                = last_def n (compound_defs content))
  /\ OrderedDict.keys (domains o)
     = first_occurrences (map fst (domain_defs off content))
  /\ (forall n, OrderedDict.get n (domains o)
                = last_def n (domain_defs off content)).
Proof.
  intros H. destruct (LoadedFrom_model _ _ _ H) as (path & Hm).
  destruct (model_of_inv _ _ _ _ Hm) as (_ & Ho & _).
  rewrite Ho. simpl. repeat split.
  - apply OrderedDictFacts.keys_assign_all.
  - intros n. apply OrderedDictFacts.get_assign_all_empty.
  - apply OrderedDictFacts.keys_assign_all.
  - intros n. apply OrderedDictFacts.get_assign_all_empty.
Qed.

Lemma redefinition_overwrites_in_place_witness :
  OrderedDict.keys (domains (self (loaded_state 0 ex_redefined)))
  = [lit "A"; lit "B"]
  /\ OrderedDict.get (lit "A") (domains (self (loaded_state 0 ex_redefined)))
     = Some (2, 6).
Proof.
  destruct (redefinition_overwrites_in_place
              ex_redefined 0 (self (loaded_state 0 ex_redefined)))
    as (_ & _ & Hk & Hg).
  - exists (disk (lit "in.dat") ex_redefined), (lit "in.dat"),
      (loaded_state 0 ex_redefined).
    split; [apply disk_file | split; [vm_compute |]; reflexivity].
  - rewrite Hk, Hg. vm_compute. split; reflexivity.
Defined.

(** ** The serializers on a loaded instance *)





(** ** What the methods leave alone *)

Section Keeps.
Context {X : Type} (proj : State -> X).

Lemma keeps_ret {A} (a : A) : keeps proj (ret a).
Proof. now intros st. Qed.

Lemma keeps_raise {A} e : keeps proj (@raise A e).
Proof. now intros st. Qed.

Lemma keeps_lift {A} (r : result A) : keeps proj (lift r).
Proof. now intros st. Qed.

Lemma keeps_get_self : keeps proj get_self.
Proof. now intros st. Qed.

Lemma keeps_bind {A B} (m : M A) (k : A -> M B) :
  keeps proj m -> (forall a, keeps proj (k a)) -> keeps proj (bind m k).
Proof.
  intros Hm Hk st. unfold bind. specialize (Hm st).
  destruct (m st) as [[a | e] st']; simpl in *; [| assumption].
  now rewrite (Hk a st').
Qed.

Lemma keeps_for_each {A} (l : list A) (body : A -> M unit) :
  (forall x, keeps proj (body x)) -> keeps proj (for_each l body).
Proof.
  intros Hb. induction l as [| x l IH]; simpl.
  - apply keeps_ret.
  - apply keeps_bind; auto.
Qed.

Lemma keeps_for_gen {A} (g : list (result A)) (body : A -> M unit) :
  (forall x, keeps proj (body x)) -> keeps proj (for_gen g body).
Proof.
  intros Hb. induction g as [| r g IH]; simpl.
  - apply keeps_ret.
  - apply keeps_bind; [apply keeps_lift |].
    intros x. apply keeps_bind; auto.
Qed.

Lemma keeps__ordered_domains : keeps proj _ordered_domains.
Proof.
  unfold _ordered_domains. apply keeps_bind; [apply keeps_get_self |].
  intros o. apply keeps_ret.
Qed.

Lemma keeps_attr f : keeps proj (attr f).
Proof.
  unfold attr. apply keeps_bind; [apply keeps_get_self |].
  intros o. destruct (f o); [apply keeps_ret | apply keeps_raise].
Qed.

Lemma keeps_py_int s : keeps proj (py_int s).
Proof.
  unfold py_int. destruct (PyStr.int_literal _);
    [apply keeps_ret | apply keeps_raise].
Qed.

Lemma keeps_transform z : keeps proj (transform z).
Proof.
  unfold transform. apply keeps_bind; [apply keeps_get_self |].
  intros o. apply keeps_ret.
Qed.

Lemma keeps_index_first a : keeps proj (index_first a).
Proof. destruct a; [apply keeps_raise | apply keeps_ret]. Qed.

Lemma keeps_index_last a : keeps proj (index_last a).
Proof.
  unfold index_last. destruct (rev a); [apply keeps_raise | apply keeps_ret].
Qed.
End Keeps.

Lemma keeps_fs_fwrite s : keeps fs (fwrite s).
Proof. now intros st. Qed.

Lemma keeps_fs_print s : keeps fs (print s).
Proof. now intros st. Qed.

Lemma keeps_fs_modify_self f : keeps fs (modify_self f).
Proof. now intros st. Qed.

Lemma keeps_fs_read_file path : keeps fs (read_file path).
Proof. intros st. unfold read_file. now destruct (fs st path). Qed.

Lemma keeps_out_modify_self f : keeps (fun st => (buf st, stdout st)) (modify_self f).
Proof. now intros st. Qed.

Lemma keeps_out_read_file path :
  keeps (fun st => (buf st, stdout st)) (read_file path).
Proof. intros st. unfold read_file. now destruct (fs st path). Qed.

Create HintDb keeps.
#[local] Hint Resolve keeps_ret keeps_raise keeps_lift keeps_get_self
  keeps__ordered_domains keeps_attr keeps_py_int keeps_transform
  keeps_index_first keeps_index_last keeps_fs_fwrite keeps_fs_print
  keeps_fs_modify_self keeps_fs_read_file keeps_out_modify_self
  keeps_out_read_file : keeps.

Ltac keeps_step :=
  match goal with
  | |- keeps _ (bind _ _) => apply keeps_bind; [| intros ?]
  | |- keeps _ (for_each _ _) => apply keeps_for_each; intros ?
  | |- keeps _ (for_gen _ _) => apply keeps_for_gen; intros [? [? ?]]
  | |- keeps _ (match ?x with _ => _ end) => destruct x
  | |- keeps _ _ => solve [auto with keeps]
  end.

Lemma keeps_load_line {X} (proj : State -> X) raw :
  (forall f, keeps proj (modify_self f)) -> keeps proj (load_line raw).
Proof.
  intros Hmod. unfold load_line.
  repeat keeps_step; try apply Hmod.
Qed.

Lemma keeps_init {X} (proj : State -> X) path off :
  (forall f, keeps proj (modify_self f)) ->
  keeps proj (read_file path) ->
  keeps proj (__init__ path off).
Proof.
  intros Hmod Hread. unfold __init__, load.
  repeat keeps_step; try apply Hmod; try apply Hread.
  now apply keeps_load_line.
Qed.


(** X5.  Loading reads and never writes: after the constructor, whether
    it returned or raised, every file on the disk has the content it had
    before, nothing was printed, and no output buffer was touched. *)
Theorem load_changes_no_file path off st :
  fs (snd (__init__ path off st)) = fs st
  /\ stdout (snd (__init__ path off st)) = stdout st
  /\ buf (snd (__init__ path off st)) = buf st.
Proof.
  split.
  - apply (keeps_init fs); auto with keeps.
  - pose proof (keeps_init (fun st => (buf st, stdout st)) path off
                  keeps_out_modify_self (keeps_out_read_file path) st) as H.
    simpl in H. now injection H as -> ->.
Qed.

Lemma keeps_fs_writes_only {A} path (m : M A) :
  keeps fs m -> writes_only path m.
Proof. intros H st p _. now rewrite (H st). Qed.

Lemma writes_only_bind {A B} path (m : M A) (k : A -> M B) :
  writes_only path m -> (forall a, writes_only path (k a)) ->
  writes_only path (bind m k).
Proof.
  intros Hm Hk st p Hp. unfold bind. specialize (Hm st p Hp).
  destruct (m st) as [[a | e] st']; simpl in *; [| assumption].
  now rewrite (Hk a st' p Hp).
Qed.

Lemma writes_only_with_open_w path body :
  keeps fs body -> writes_only path (with_open_w path body).
Proof.
  intros Hb st p Hp. unfold with_open_w.
  destruct (writable st path); [| reflexivity].
  specialize (Hb (mkState (self st) (fs st) [] (stdout st) (writable st))).
  destruct (body _) as [r st']. simpl in *.
  unfold fs_set. rewrite str_eqb_neq by assumption. now rewrite Hb.
Qed.

Lemma keeps_fs_xvg_loop yval g : forall prev, keeps fs (xvg_loop yval prev g).
Proof.
  induction g as [| r g IH]; intros prev; simpl; repeat keeps_step.
Qed.

Lemma keeps_fs_bendix_loop g : forall acc, keeps fs (bendix_loop g acc).
Proof.
  induction g as [| r g IH]; intros acc; simpl; repeat keeps_step.
Qed.

Lemma keeps_fs__write yval : keeps fs (_write yval).
Proof. unfold _write. repeat keeps_step; apply keeps_fs_xvg_loop. Qed.

Lemma keeps_fs__write_vmd_addrep_domains c m r :
  keeps fs (_write_vmd_addrep_domains c m r).
Proof. unfold _write_vmd_addrep_domains. repeat keeps_step. Qed.

Ltac writes_only_step :=
  match goal with
  | |- writes_only _ (bind _ _) => apply writes_only_bind; [| intros ?]
  | |- writes_only _ (with_open_w _ _) => apply writes_only_with_open_w
  | |- writes_only _ _ => apply keeps_fs_writes_only
  | |- keeps _ (for_each _ _) => apply keeps_for_each; intros [? ?]
  | |- keeps _ _ => keeps_step
  end.

(** X6.  A serializer changes no file but the one it is told to write:
    whatever the state it starts in and whether it returns or raises,
    every other path of the disk has the content it had before. *)
Theorem serializers_write_only_their_file path st p :
  p <> path ->
  fs (snd (write path st)) p = fs st p
  /\ fs (snd (write_vmd path st)) p = fs st p
  /\ fs (snd (write_bendix path st)) p = fs st p
  /\ fs (snd (write_pymol path st)) p = fs st p
  /\ fs (snd (write_charmm path st)) p = fs st p
  /\ fs (snd (write_xvg path st)) p = fs st p.
Proof.
  intros Hp. repeat split.
  - revert st p Hp. change (writes_only path (write path)).
    unfold write. repeat writes_only_step.
  - revert st p Hp. change (writes_only path (write_vmd path)).
    unfold write_vmd. repeat writes_only_step.
    apply keeps_fs__write_vmd_addrep_domains.
  - revert st p Hp. change (writes_only path (write_bendix path)).
    unfold write_bendix. repeat writes_only_step.
    apply keeps_fs_bendix_loop.
  - revert st p Hp. change (writes_only path (write_pymol path)).
    unfold write_pymol. repeat writes_only_step.
  - revert st p Hp. change (writes_only path (write_charmm path)).
    unfold write_charmm. repeat writes_only_step.
  - revert st p Hp. change (writes_only path (write_xvg path)).
    unfold write_xvg. repeat writes_only_step; apply keeps_fs__write.
Qed.

Lemma serializers_write_only_their_file_witness :
  fs (snd (write_vmd (lit "out.tcl") (loaded_state 0 ex_redefined)))
     (lit "in.dat")
  = fs (loaded_state 0 ex_redefined) (lit "in.dat").
Proof.
  apply (serializers_write_only_their_file
           (lit "out.tcl") (loaded_state 0 ex_redefined) (lit "in.dat")).
  discriminate.
Defined.

(** ** When the constructor succeeds *)

Lemma assign_all_nil {V} (defs : list (str * V)) :
  assign_all defs OrderedDict.empty = [] -> defs = [].
Proof.
  destruct defs as [| [k v] defs]; [reflexivity |]. intros H. exfalso.
  assert (Hin : In k (OrderedDict.keys
                        (assign_all ((k, v) :: defs) OrderedDict.empty))).
  { rewrite OrderedDictFacts.keys_assign_all. apply In_fold_add_key.
    right. now left. }
  rewrite H in Hin. destruct Hin.
Qed.

Lemma model_of_cases path off content :
  match model_of path off content with
  | OK _ => existsb malformed (PyStr.lines content) = false
            /\ domain_defs off content <> []
  | Raise ValueError => existsb malformed (PyStr.lines content) = true
  | Raise IndexError => existsb malformed (PyStr.lines content) = false
                        /\ domain_defs off content = []
  | Raise _ => False
  end.
Proof.
  unfold model_of.
  destruct (existsb malformed (PyStr.lines content)); [reflexivity |].
  destruct (sort _) as [| x r] eqn:Hs.
  - split; [reflexivity |]. apply sort_nil in Hs.
    apply assign_all_nil.
    destruct (assign_all (domain_defs off content) OrderedDict.empty)
      as [| [k [a b]] d]; [reflexivity | discriminate].
  - destruct (rev (x :: r)) as [| y r'] eqn:Hr.
    + simpl in Hr. now destruct (rev r).
    + split; [reflexivity |]. intros Hnil. rewrite Hnil in Hs. discriminate.
Qed.


(** X7.  The constructor returns exactly when the file exists, none of
    its lines is malformed and it defines at least one domain.  It raises
    IOError exactly when the file does not exist, ValueError exactly when
    the file has a malformed line, IndexError exactly when the file has
    no malformed line and no domain definition, and never any other
    exception. *)
Theorem constructor_outcome path off st :
  (fs st path = None -> fst (__init__ path off st) = Raise IOError)
  /\ (forall content,
         fs st path = Some content ->
         (fst (__init__ path off st) = OK tt
          <-> existsb malformed (PyStr.lines content) = false
              /\ domain_defs off content <> [])
         /\ (fst (__init__ path off st) = Raise ValueError
             <-> existsb malformed (PyStr.lines content) = true)
         /\ (fst (__init__ path off st) = Raise IndexError
             <-> existsb malformed (PyStr.lines content) = false
                 /\ domain_defs off content = [])
         /\ fst (__init__ path off st) <> Raise IOError
         /\ fst (__init__ path off st) <> Raise KeyError
         /\ fst (__init__ path off st) <> Raise AttributeError).
Proof.
  split.
  - intros Hnone. unfold __init__, load.
    erewrite bind_ok by reflexivity.
    erewrite bind_raise; [reflexivity |].
    unfold read_file. simpl. now rewrite Hnone.
  - intros content Hfile.
    destruct (init_run path off st content Hfile) as (st' & -> & _). simpl.
    pose proof (model_of_cases path off content) as Hc.
    destruct (model_of path off content) as [o | []]; try contradiction.
    + destruct Hc as [Hm Hd]. rewrite Hm.
      repeat split; try discriminate; try tauto; intros []; congruence.
    + rewrite Hc. repeat split; try discriminate; try tauto;
        intros []; congruence.
    + destruct Hc as [Hm Hd]. rewrite Hm, Hd.
      repeat split; try discriminate; try tauto; intros []; congruence.
Qed.

Lemma constructor_outcome_witness :
  fst (__init__ (lit "missing.dat") 0 (disk (lit "in.dat") ex_redefined))
  = Raise IOError
  /\ fst (__init__ (lit "in.dat") 0 (disk (lit "in.dat") ex_redefined)) = OK tt.
Proof.
  split.
  - apply (constructor_outcome (lit "missing.dat") 0
             (disk (lit "in.dat") ex_redefined)).
    reflexivity.
  - apply (proj2 (constructor_outcome (lit "in.dat") 0
                    (disk (lit "in.dat") ex_redefined))
             ex_redefined (disk_file _ _)).
    split; [vm_compute; reflexivity | vm_compute; discriminate].
Defined.

(** ** The helix file *)

Lemma residue_strings_fields (items : list (str * (Z * Z))) :
  Forall (fun f => is_field f = true)
         (flat_map (fun d => [PyStr.str_of_int (fst (snd d));
                              PyStr.str_of_int (snd (snd d))]) items).
Proof.
  apply Forall_forall. intros f Hf. apply in_flat_map in Hf as (d & _ & Hf).
  destruct Hf as [<- | [<- | []]]; apply PyStrFacts.str_of_int_field.
Qed.

(** X8.  The helix file of a loaded instance, written to a path that
    can be opened, is one line, and reading it back, splitting it at
    whitespace and converting the fields with [int], gives the start and
    the end of every domain in order-sequence order. *)
Theorem bendix_file_reads_back path st :
  Loaded (self st) ->
  writable st path = true ->
  exists text,
    fs (snd (write_bendix path st)) path = Some text
    /\ PyStr.lines text = [text]
    /\ map PyStr.int_literal (PyStr.split text)
       = map Some (ravel (map snd (ordered_items (self st)))).
Proof.
  intros HL Hw. pose proof (Loaded_order_in_table _ HL) as Hord.
  exists (bendix_text (self st)).
  rewrite write_bendix_run by assumption. simpl.
  split; [apply fs_set_same |].
  unfold bendix_text.
  set (items := ordered_items (self st)).
  pose proof (residue_strings_fields items) as Hf.
  set (nums := flat_map _ items) in *.
  split.
  - unfold nl.
    rewrite (PyStrFacts.lines_line (PyStr.join (lit " ") nums) [])
      by now apply PyStrFacts.join_no_nl.
    reflexivity.
  - unfold nl, PyStr.split.
    rewrite (PyStrFacts.split_aux_snoc_space chr_nl eq_refl).
    fold (PyStr.split (PyStr.join (lit " ") nums)).
    rewrite PyStrFacts.split_join by assumption.
    unfold nums, ravel. clear. induction items as [| [n [s e]] items IH];
      simpl; [reflexivity |].
    now rewrite !PyStrFacts.int_literal_str_of_int, IH.
Qed.

Lemma bendix_file_reads_back_witness :
  exists text,
    fs (snd (write_bendix (lit "out.bendix") (loaded_state 0 ex_redefined)))
       (lit "out.bendix") = Some text
    /\ PyStr.lines text = [text]
    /\ map PyStr.int_literal (PyStr.split text)
       = map Some (ravel (map snd (ordered_items
                                     (self (loaded_state 0 ex_redefined))))).
Proof.
  apply (bendix_file_reads_back (lit "out.bendix") (loaded_state 0 ex_redefined)).
  - apply (loaded_state_Loaded 0 ex_redefined). vm_compute. reflexivity.
  - vm_compute. reflexivity.
Defined.

(** ** More on token substitution *)

(** X9.  The visualization-macro writer and the PyMOL writer substitute
    alike on every string, and for every known target a string without
    the characters | & ! comes out as it went in: a compound definition
    that uses no operator is emitted verbatim. *)
Theorem substitution_agrees_and_keeps_plain_text :
  (forall s, _transform (lit "vmd") s = _transform (lit "pymol") s)
  /\ (forall mode s r,
         _transform mode s = OK r ->
         forallb (fun c => negb (is_operator c)) s = true ->
         r = s).
Proof.
  split.
  - intros s. reflexivity.
  - intros mode s r. rewrite _transform_spec.
    destruct (target_of_mode mode) as [t |]; [| discriminate].
    intros [= <-] Hplain. now apply substitute_tokens_plain.
Qed.

Lemma substitution_agrees_and_keeps_plain_text_witness :
  _transform (lit "charmm") (lit "(TM1 TM2)") = OK (lit "(TM1 TM2)")
  /\ lit "(TM1 TM2)" = lit "(TM1 TM2)".
Proof.
  split; [reflexivity |].
  apply (proj2 substitution_agrees_and_keeps_plain_text (lit "charmm")
               (lit "(TM1 TM2)") (lit "(TM1 TM2)"));
    reflexivity.
Defined.

Lemma token_nonempty t c tok : token t c = Some tok -> tok <> [].
Proof.
  destruct t; simpl;
    destruct (Ascii.eqb c "|"); try (intros [= <-]; discriminate);
    destruct (Ascii.eqb c "&"); try (intros [= <-]; discriminate);
    destruct (Ascii.eqb c "!"); try (intros [= <-]; discriminate);
    discriminate.
Qed.

Lemma substitute_tokens_length t s :
  (length s <= length (substitute_tokens t s))%nat.
Proof.
  induction s as [| c s IH]; simpl; [lia |].
  rewrite length_app.
  destruct (token t c) as [tok |] eqn:Ht; simpl; [| lia].
  apply token_nonempty in Ht. destruct tok; [congruence | simpl; lia].
Qed.

(** X10.  Token substitution works on each character by itself: the
    substitution of a concatenation is the concatenation of the
    substitutions, and the result is never shorter than the input. *)
Theorem substitution_distributes_over_concatenation mode a b ra rb :
  _transform mode a = OK ra ->
  _transform mode b = OK rb ->
  _transform mode (a ++ b) = OK (ra ++ rb)
  /\ (length a <= length ra)%nat.
Proof.
  rewrite !_transform_spec.
  destruct (target_of_mode mode) as [t |]; [| discriminate].
  intros [= <-] [= <-]. split.
  - unfold substitute_tokens. now rewrite flat_map_app.
  - apply substitute_tokens_length.
Qed.

Lemma substitution_distributes_over_concatenation_witness :
  _transform (lit "charmm") (lit "A |" ++ lit " !B")
  = OK (lit "A  .or. " ++ lit "  .not. B")
  /\ (length (lit "A |") <= length (lit "A  .or. "))%nat.
Proof.
  apply (substitution_distributes_over_concatenation
           (lit "charmm") (lit "A |") (lit " !B"));
    reflexivity.
Defined.

(** ** More on the numeric transform *)

(** X11.  The offset keeps the order of residues (a range that is given
    with start <= end is stored with start <= end), and as long as the
    first shift does not hit the floor of 1, shifting by one offset and
    then by another is shifting by their sum. *)
Theorem transform_keeps_order_and_composes :
  (forall st a b x y,
      fst (transform a st) = OK x -> fst (transform b st) = OK y ->
      a <= b -> x <= y)
  /\ (forall st1 st2 a x y,
         fst (transform a st1) = OK x -> fst (transform x st2) = OK y ->
         1 <= a + offset (self st1) ->
         y = Z.max 1 (a + (offset (self st1) + offset (self st2)))).
Proof.
  split.
  - intros st a b x y. rewrite !transform_run. simpl.
    intros [= <-] [= <-]. unfold clamp. lia.
  - intros st1 st2 a x y. rewrite !transform_run. simpl.
    intros [= <-] [= <-]. unfold clamp. lia.
Qed.

Lemma transform_keeps_order_and_composes_witness :
  fst (transform 10 (loaded_state 3 ex_offsets)) = OK 13
  /\ fst (transform 20 (loaded_state 3 ex_offsets)) = OK 23
  /\ 13 <= 23.
Proof.
  split; [reflexivity | split; [reflexivity |]].
  apply (proj1 transform_keeps_order_and_composes
               (loaded_state 3 ex_offsets) 10 20 13 23);
    [reflexivity | reflexivity | lia].
Defined.

(** ** The driver *)



















(** ** Reading a written file with a new offset *)

Lemma sem_domains_off k items : forall rest,
  Forall (fun d => good_domain d = true) items ->
  sem k (flat_map (fun d => write_domline (fst d) (fst (snd d)) (snd (snd d))
                            ++ nl) items ++ rest)
  = (fst (fst (sem k rest)),
     map (shift_range k) items ++ snd (fst (sem k rest)),
     snd (sem k rest)).
Proof.
  induction items as [| [n [s e]] items IH]; intros rest Hgood;
    cbn [flat_map fst snd map].
  - unfold sem. reflexivity.
  - inversion Hgood as [| ? ? Hd Hitems]; subst.
    unfold nl. rewrite <- !app_assoc. cbn [app].
    rewrite sem_line
      by now apply write_domline_no_nl, (good_domain_nospace (n, (s, e))).
    destruct (domain_line_off k n s e Hd) as (H1 & H2 & H3).
    unfold nl in H1, H2, H3. rewrite H1, H2, H3.
    fold nl. rewrite IH by assumption. reflexivity.
Qed.

Lemma sem_write_text_off k o :
  Forall (fun d => good_domain d = true) (ordered_items o) ->
  Forall (fun c => good_compound c = true) (compounds o) ->
  sem k (write_text o)
  = (false, map (shift_range k) (ordered_items o), compounds o).
Proof.
  intros Hd Hc. unfold write_text, body_text.
  rewrite sem_write_header.
  rewrite sem_domains_off by assumption.
  assert (Hmark : forall rest,
             sem k (lit "# compound statements" ++ nl ++ rest) = sem k rest).
  { intros rest.
    change (lit "# compound statements" ++ nl ++ rest)
      with (lit "# compound statements" ++ chr_nl :: rest).
    now rewrite sem_skip by reflexivity. }
  rewrite Hmark.
  rewrite <- (app_nil_r (flat_map _ (compounds o))).
  rewrite sem_compounds by assumption.
  rewrite sem_nil. simpl. now rewrite !app_nil_r.
Qed.

Lemma set_shift k n v d :
  OrderedDict.set n (snd (shift_range k (n, v))) (shift_table k d)
  = shift_table k (OrderedDict.set n v d).
Proof.
  induction d as [| [n0 v0] d IH]; simpl; [reflexivity |].
  destruct (str_eqb n0 n); simpl; [reflexivity |]. now rewrite <- IH.
Qed.

Lemma assign_all_shift k defs : forall d,
  assign_all (map (shift_range k) defs) (shift_table k d)
  = shift_table k (assign_all defs d).
Proof.
  induction defs as [| [n v] defs IH]; intros d; simpl; [reflexivity |].
  rewrite <- IH. f_equal. apply (set_shift k n v d).
Qed.

Lemma assign_ordered_items path off content o :
  model_of path off content = OK o ->
  assign_all (ordered_items o) OrderedDict.empty = domains o.
Proof.
  intros Hm. pose proof (model_round_trip _ _ _ _ path Hm) as Hrt.
  destruct (model_good_items _ _ _ _ Hm) as [Hdg Hcg].
  pose proof (f_equal (fun t => snd (fst t)) (sem_write_text o Hdg Hcg)) as Hd.
  unfold sem in Hd. cbn [fst snd] in Hd.
  apply model_of_inv in Hrt as (_ & Ho' & _).
  apply (f_equal domains) in Ho'. simpl in Ho'. now rewrite Hd in Ho'.
Qed.

Lemma model_reload path off content o pout k :
  model_of path off content = OK o ->
  exists lo hi,
    model_of pout k (write_text o)
    = OK (mkDomDef pout (shift_table k (domains o)) (compounds o)
                   (domain_order o) k (Some lo) (Some hi)).
Proof.
  intros Hm.
  destruct (model_good_items _ _ _ _ Hm) as [Hdg Hcg].
  pose proof (model_order_in_table _ _ _ _ Hm) as Hord.
  pose proof (sem_write_text_off k o Hdg Hcg) as Hsem.
  pose proof (f_equal (fun t => fst (fst t)) Hsem) as Hmal.
  pose proof (f_equal (fun t => snd (fst t)) Hsem) as Hdefs.
  pose proof (f_equal snd Hsem) as Hcomps.
  unfold sem in Hmal, Hdefs, Hcomps. cbn [fst snd] in Hmal, Hdefs, Hcomps.
  clear Hsem.
  destruct (model_of_inv _ _ _ _ Hm)
    as (_ & Ho & lo & hi & r & r' & Hsort & _).
  assert (Hd : assign_all (map (shift_range k) (ordered_items o))
                          OrderedDict.empty
               = shift_table k (domains o)).
  { rewrite <- (assign_ordered_items _ _ _ _ Hm).
    apply (assign_all_shift k (ordered_items o) []). }
  assert (Hc : assign_all (compounds o) OrderedDict.empty = compounds o).
  { apply (OrderedDictFacts.assign_all_fresh (compounds o) []).
    simpl. rewrite Ho. simpl. apply OrderedDictFacts.NoDup_keys_assign_all. }
  assert (Hn : map fst (map (shift_range k) (ordered_items o)) = domain_order o).
  { rewrite (ordered_items_map o Hord), !map_map. simpl. apply map_id. }
  unfold model_of. rewrite Hmal, Hdefs, Hcomps, Hd, Hc, Hn.
  destruct (sort (ravel (OrderedDict.values (shift_table k (domains o)))))
    as [| x t] eqn:Hs.
  - apply sort_nil in Hs.
    destruct (domains o) as [| [n [a b]] d]; [discriminate Hsort | discriminate Hs].
  - destruct (rev (x :: t)) as [| y t'] eqn:Hr.
    + simpl in Hr. now destruct (rev t).
    + now exists x, y.
Qed.

(** X14.  What [write] leaves, in a file it can open, can be loaded with
    any offset, and the
    offsets add up the way [transform] does: loading the written file
    with offset k succeeds and gives the domain table of the instance
    with every residue shifted by k and floored at 1, under the same
    names in the same order, the same order sequence and the same
    compound table. *)
Theorem written_file_loads_with_any_offset pin off st0 st1 pout k :
  __init__ pin off st0 = (OK tt, st1) ->
  writable st1 pout = true ->
  exists st2 st3,
    write pout st1 = (OK tt, st2)
    /\ __init__ pout k st2 = (OK tt, st3)
    /\ domains (self st3) = shift_table k (domains (self st1))
    /\ domain_order (self st3) = domain_order (self st1)
    /\ compounds (self st3) = compounds (self st1)
    /\ offset (self st3) = k.
Proof.
  intros Hload Hw.
  destruct (init_ok_model _ _ _ _ Hload) as (content & o & Hfile & Hm & ->).
  pose proof (model_order_in_table _ _ _ _ Hm) as Hord.
  eexists.
  destruct (init_run pout k
              (mkState o (fs_set pout (write_text o) (fs st0)) (buf st0)
                       (stdout st0) (writable st0))
              (write_text o)) as (st3 & Hrun & Hst3).
  { simpl. apply fs_set_same. }
  destruct (model_reload _ _ _ _ pout k Hm) as (lo & hi & Hmodel).
  rewrite Hmodel in Hrun, Hst3.
  exists st3. split; [| split].
  - now rewrite write_run by assumption.
  - exact Hrun.
  - subst st3. simpl. auto.
Qed.

Lemma written_file_loads_with_any_offset_witness :
  exists st2 st3,
    write (lit "out.dat") (loaded_state 3 ex_offsets) = (OK tt, st2)
    /\ __init__ (lit "out.dat") (-10) st2 = (OK tt, st3)
    /\ domains (self st3)
       = shift_table (-10) (domains (self (loaded_state 3 ex_offsets)))
    /\ domain_order (self st3) = domain_order (self (loaded_state 3 ex_offsets))
    /\ compounds (self st3) = compounds (self (loaded_state 3 ex_offsets))
    /\ offset (self st3) = -10.
Proof.
  apply (written_file_loads_with_any_offset
           (lit "in.dat") 3 (disk (lit "in.dat") ex_offsets)).
  - vm_compute. reflexivity.
  - vm_compute. reflexivity.
Defined.

(** ** The first domain of the graph *)

(** X15.  The graph that [write_xvg] writes of a loaded instance is never
    empty: when the residues are below 2^63 and the path can be opened,
    there is a first domain in the order sequence, the walk of each pass
    visits it, and so the file holds, in each of its two passes, the
    rectangle of that domain right after the opening point. *)
Theorem xvg_file_shows_the_first_domain st path :
  Loaded (self st) ->
  residues_fit (self st) ->
  writable st path = true ->
  exists lo hi d rest visited,
    first (self st) = Some lo /\ last (self st) = Some hi
    /\ ordered_items (self st) = d :: rest
    /\ fst (write_xvg path st) = OK tt
    /\ fs (snd (write_xvg path st)) path
       = Some (xvg_header (self st)
               ++ (xvg_point lo G_zero ++ xvg_rect G_half d
                   ++ flat_map (xvg_rect G_half) visited
                   ++ xvg_point hi G_zero)
               ++ lit "&" ++ nl
               ++ (xvg_point lo G_zero ++ xvg_rect G_minus_half d
                   ++ flat_map (xvg_rect G_minus_half) visited
                   ++ xvg_point hi G_zero)).
Proof.
  intros HL _ Hw. pose proof (Loaded_order_in_table _ HL) as Hord.
  destruct (Loaded_extrema _ HL) as (lo & hi & Hlo & Hhi & Hle).
  pose proof (Loaded_has_domain _ HL) as Hne.
  rewrite (write_xvg_run path lo hi st Hord Hlo Hhi Hw). simpl.
  rewrite fs_set_same.
  rewrite (ordered_items_map (self st) Hord) in *.
  destruct (domain_order (self st)) as [| n ns]; [congruence |].
  simpl in *.
  exists lo, hi, (n, range_of (self st) n),
    (map (fun n => (n, range_of (self st) n)) ns).
  specialize (Hle (n, range_of (self st) n) (or_introl eq_refl)).
  unfold start_of in Hle. simpl in Hle.
  destruct (Z.ltb_spec (fst (range_of (self st) n)) lo); [lia |].
  eexists. repeat split; try assumption.
  unfold xvg_pass. simpl. now rewrite <- !app_assoc.
Qed.

Lemma xvg_file_shows_the_first_domain_witness :
  exists lo hi d rest visited,
    first (self (loaded_state 0 ex_redefined)) = Some lo
    /\ last (self (loaded_state 0 ex_redefined)) = Some hi
    /\ ordered_items (self (loaded_state 0 ex_redefined)) = d :: rest
    /\ fst (write_xvg (lit "out.xvg") (loaded_state 0 ex_redefined)) = OK tt
    /\ fs (snd (write_xvg (lit "out.xvg") (loaded_state 0 ex_redefined)))
          (lit "out.xvg")
       = Some (xvg_header (self (loaded_state 0 ex_redefined))
               ++ (xvg_point lo G_zero ++ xvg_rect G_half d
                   ++ flat_map (xvg_rect G_half) visited
                   ++ xvg_point hi G_zero)
               ++ lit "&" ++ nl
               ++ (xvg_point lo G_zero ++ xvg_rect G_minus_half d
                   ++ flat_map (xvg_rect G_minus_half) visited
                   ++ xvg_point hi G_zero)).
Proof.
  apply (xvg_file_shows_the_first_domain
           (loaded_state 0 ex_redefined) (lit "out.xvg")).
  - apply (loaded_state_Loaded 0 ex_redefined). vm_compute. reflexivity.
  - vm_compute. reflexivity.
  - vm_compute. reflexivity.
Defined.
